(** * Request manager of the webwire client: a shallow embedding

    The development models [requestmanager] (request identifiers, the
    [Request] handle with [AwaitReply], and the [RequestManager] with
    [Create], [deregister], [Fulfill], [Fail], [PendingRequests] and
    [IsPending]) and proves properties of its request/reply correlation.
    It also models the message validator ([MessageContents]) and the
    [Login] resolver of the postboard server.

    Go objects reached through pointers ([*RequestManager], [*Request],
    [chan reply]) live in typed heaps indexed by locations.  The sections
    guarded by [manager.lock] are atomic steps of a goroutine; a goroutine
    is a call together with the program point it has reached. *)

From stdpp Require Import base gmap list strings fin_maps.
From Stdlib Require Import ZArith Lia.

Local Open Scope Z_scope.

(** ** Data *)

Definition loc := nat.

(** [type RequestIdentifier = [8]byte]: the bytes, lowest index first. *)
Definition RequestIdentifier := list Z.

(** [uint64] arithmetic wraps around. *)
Definition uint64_modulus : Z := 2 ^ 64.
Definition uint64_incr (v : Z) : Z := (v + 1) mod uint64_modulus.

(** [byte(v >> (8*i))], the conversion to [byte] keeps the low eight bits. *)
Definition byte_at (v : Z) (i : Z) : Z := Z.land (Z.shiftr v (8 * i)) 255.

(** [binary.LittleEndian.PutUint64(idBytes, v)] followed by the copy into
    the identifier array. *)
Definition PutUint64 (v : Z) : RequestIdentifier :=
  [ byte_at v 0; byte_at v 1; byte_at v 2; byte_at v 3;
    byte_at v 4; byte_at v 5; byte_at v 6; byte_at v 7 ].

(** [binary.LittleEndian.Uint64]: the decoding used to read an identifier
    back as a number. *)
Fixpoint Uint64 (b : list Z) : Z :=
  match b with
  | [] => 0
  | x :: rest => Z.lor x (Z.shiftl (Uint64 rest) 8)
  end.

(** [pld.Payload]: an encoding tag and the data bytes. *)
Record pld_Payload := { Encoding : Z; Data : list Z }.

(** [webwire.EncodedPayload] wraps a [pld.Payload]. *)
Record EncodedPayload := { Payload : pld_Payload }.

(** The interface value [webwire.Payload]: [nil] or a pointer to an
    [EncodedPayload]. *)
Definition webwire_Payload := option EncodedPayload.

(** [&webwire.EncodedPayload{}]: the zero value. *)
Definition empty_EncodedPayload : EncodedPayload :=
  {| Payload := {| Encoding := 0; Data := [] |} |}.

(** Error values.  [ContextCanceled] and [ContextDeadlineExceeded] are the
    two errors of package [context]; [Errorf] is [fmt.Errorf]; [Wrapped]
    stands for the error types of the webwire library. *)
Inductive err :=
  | ContextCanceled
  | ContextDeadlineExceeded
  | Errorf (msg : string)
  | Wrapped (kind : string) (cause : err).

(** The interface value [error]: [nil] is [None]. *)
Definition error := option err.

(** [type reply struct { Reply webwire.Payload; Error error }] *)
Record reply := { Reply : webwire_Payload; Error : error }.

(** [type Request struct]; [manager] is a [*RequestManager], [reply_ch] the
    channel held in field [reply]. *)
Record Request := {
  manager : loc;
  identifier : RequestIdentifier;
  timeout : Z;
  reply_ch : loc;
}.

(** [type RequestManager struct]; [pending] maps identifiers to [*Request].
    The lock is held only inside the atomic steps below and is free
    between them, so it carries no state here. *)
Record RequestManager := {
  lastID : Z;
  pending : gmap RequestIdentifier loc;
}.

(** A Go channel: its capacity and the values buffered in it. *)
Record chan := { chan_cap : nat; chan_buf : list reply }.

(** [make(chan reply)]: an unbuffered channel. *)
Definition make_chan : chan := {| chan_cap := 0; chan_buf := [] |}.

(** ** The critical sections of the manager *)

Definition NewRequestManager : RequestManager :=
  {| lastID := 0; pending := ∅ |}.

(** The memory the manager's methods work on. *)
Record Heap := {
  mgrs : gmap loc RequestManager;
  reqs : gmap loc Request;
  chans : gmap loc chan;
}.

(** [func (manager *RequestManager) Create(timeout) *Request]; the whole
    body runs under the write lock.  [self] is the receiver. *)
Definition Create (self : loc) (tmo : Z) (h : Heap) : option (loc * Heap) :=
  match mgrs h !! self with
  | None => None
  | Some m =>
      let lastID' := uint64_incr (lastID m) in
      let ident := PutUint64 lastID' in
      let ch := fresh (dom (chans h)) in
      let newRequest := fresh (dom (reqs h)) in
      let r := {| manager := self; identifier := ident;
                  timeout := tmo; reply_ch := ch |} in
      let m' := {| lastID := lastID';
                   pending := <[ident := newRequest]> (pending m) |} in
      Some (newRequest,
            {| mgrs := <[self := m']> (mgrs h);
               reqs := <[newRequest := r]> (reqs h);
               chans := <[ch := make_chan]> (chans h) |})
  end.

(** [func (manager *RequestManager) deregister(identifier)] *)
Definition deregister (ident : RequestIdentifier) (m : RequestManager)
  : RequestManager :=
  {| lastID := lastID m; pending := delete ident (pending m) |}.

(** [func (manager *RequestManager) PendingRequests() int] *)
Definition PendingRequests (m : RequestManager) : nat := size (pending m).

(** [func (manager *RequestManager) IsPending(identifier) bool] *)
Definition IsPending (ident : RequestIdentifier) (m : RequestManager) : bool :=
  match pending m !! ident with
  | Some _ => true
  | None => false
  end.

(** The read-locked lookup that opens [Fulfill] and [Fail]:
    [req, exists := manager.pending[identifier]]. *)
Definition lookup_pending (ident : RequestIdentifier) (m : RequestManager)
  : option loc :=
  pending m !! ident.

(** The value [Fulfill] sends. *)
Definition fulfill_reply (p : pld_Payload) : reply :=
  {| Reply := Some {| Payload := p |}; Error := None |}.

(** The value [Fail] sends. *)
Definition fail_reply (e : error) : reply :=
  {| Reply := None; Error := e |}.

(** ** Goroutines *)

(** The case a [select] in [AwaitReply] commits to. *)
Inductive select_case :=
  | CtxDone (e : err)          (* <-ctx.Done(), with ctx.Err() = e *)
  | TimerFired                 (* <-timeoutTimer.C *)
  | ReplyReceived (v : reply). (* reply := <-req.reply *)

(** The calls a goroutine can be running. *)
Inductive call :=
  | CFulfill (a : loc) (ident : RequestIdentifier) (p : pld_Payload)
  | CFail (a : loc) (ident : RequestIdentifier) (e : error)
  | CAwaitReply (req : loc).

Inductive result :=
  | RBool (b : bool)
  | RReply (p : webwire_Payload) (e : error).

(** Program points.  [AtEntry] of [Fulfill]/[Fail] is before the
    read-locked lookup, [AtEntry] of [AwaitReply] is the [select];
    [AtSend req v] is the send [req.reply <- v]; [AtDeregister] is the
    call of [manager.deregister] that precedes [return true]. *)
Inductive pc :=
  | AtEntry
  | AtSend (req : loc) (v : reply)
  | AtDeregister
  | Returned (r : result).

Record proc := { p_call : call; p_pc : pc }.

Record State := { heap : Heap; procs : gmap nat proc }.

Definition init : State :=
  {| heap := {| mgrs := ∅; reqs := ∅; chans := ∅ |}; procs := ∅ |}.

(** The scheduler's choices. *)
Inductive action :=
  | ANew                              (* NewRequestManager() *)
  | ACreate (a : loc) (tmo : Z)       (* manager.Create(tmo) *)
  | AGo (t : nat) (c : call)          (* goroutine t enters call c *)
  | ARun (t : nat)                    (* t runs its next non-blocking step *)
  | AHandoff (ts tr : nat)            (* sender ts meets receiver tr *)
  | ARecv (t : nat)                   (* select in t takes a buffered reply *)
  | ACtxDone (t : nat) (e : err)      (* select in t takes <-ctx.Done() *)
  | ATimer (t : nat).                 (* select in t takes <-timeoutTimer.C *)

(** What a step lets an observer see.  [removed] is the table entry the
    step's [deregister] actually deleted, if any. *)
Inductive event :=
  | ENew (a : loc)
  | ECreate (a : loc) (p : loc) (r : Request)
  | EGo (t : nat) (c : call)
  | ELookup (t : nat) (found : option loc)
  | ESend (t : nat) (v : reply)
  | EHandoff (ts tr : nat) (v : reply)
  | ERecv (t : nat) (v : reply)
  | EAbandon (t : nat) (a : loc) (ident : RequestIdentifier)
      (timed_out : bool) (removed : option loc)
  | EDeregister (t : nat) (a : loc) (ident : RequestIdentifier)
      (removed : option loc).

Definition call_target (c : call) : option (loc * RequestIdentifier) :=
  match c with
  | CFulfill a ident _ => Some (a, ident)
  | CFail a ident _ => Some (a, ident)
  | CAwaitReply _ => None
  end.

(** The reply a resolver writes after a successful lookup. *)
Definition call_reply (c : call) : option reply :=
  match c with
  | CFulfill _ _ p => Some (fulfill_reply p)
  | CFail _ _ e => Some (fail_reply e)
  | CAwaitReply _ => None
  end.

Definition set_proc (t : nat) (c : call) (p : pc) (s : State) : State :=
  {| heap := heap s; procs := <[t := {| p_call := c; p_pc := p |}]> (procs s) |}.

Definition set_heap (h : Heap) (s : State) : State :=
  {| heap := h; procs := procs s |}.

(** [manager.deregister(ident)] through the pointer [a]. *)
Definition deregister_at (a : loc) (ident : RequestIdentifier) (h : Heap)
  : option Heap :=
  match mgrs h !! a with
  | None => None
  | Some m =>
      Some {| mgrs := <[a := deregister ident m]> (mgrs h);
              reqs := reqs h; chans := chans h |}
  end.

(** The entry [deregister] is about to delete. *)
Definition entry_at (a : loc) (ident : RequestIdentifier) (h : Heap)
  : option loc :=
  match mgrs h !! a with
  | None => None
  | Some m => pending m !! ident
  end.

(** The send [req.reply <- v] by goroutine [t], as far as the sender can
    complete it on its own: there must be free buffer space.  On a full or
    unbuffered channel the sender waits for a receiver (see [AHandoff] in
    [step]). *)
Definition chan_send (t : nat) (req : loc) (v : reply) (h : Heap)
  : option (event * pc * Heap) :=
  match reqs h !! req with
  | None => None
  | Some r =>
      match chans h !! reply_ch r with
      | None => None
      | Some ch =>
          if bool_decide (length (chan_buf ch) < chan_cap ch)%nat then
            Some (ESend t v, AtDeregister,
                  {| mgrs := mgrs h; reqs := reqs h;
                     chans :=
                       <[reply_ch r :=
                           {| chan_cap := chan_cap ch;
                              chan_buf := chan_buf ch ++ [v] |}]>
                         (chans h) |})
          else None
      end
  end.

(** [func (manager *RequestManager) Fulfill(identifier, payload) bool], one
    step at a time for goroutine [t] standing at [at_pc]: the read-locked
    lookup with [return false] when the identifier is absent, the send of
    the reply, and [manager.deregister(identifier)] with [return true]. *)
Definition Fulfill (self : loc) (ident : RequestIdentifier)
    (payload : pld_Payload) (t : nat) (at_pc : pc) (h : Heap)
  : option (event * pc * Heap) :=
  match at_pc with
  | AtEntry =>
      match mgrs h !! self with
      | None => None
      | Some m =>
          match lookup_pending ident m with
          | None => Some (ELookup t None, Returned (RBool false), h)
          | Some req =>
              Some (ELookup t (Some req),
                    AtSend req (fulfill_reply payload), h)
          end
      end
  | AtSend req v => chan_send t req v h
  | AtDeregister =>
      match deregister_at self ident h with
      | None => None
      | Some h' =>
          Some (EDeregister t self ident (entry_at self ident h),
                Returned (RBool true), h')
      end
  | Returned _ => None
  end.

(** [func (manager *RequestManager) Fail(identifier, err) bool], in the
    same steps. *)
Definition Fail (self : loc) (ident : RequestIdentifier) (e : error)
    (t : nat) (at_pc : pc) (h : Heap)
  : option (event * pc * Heap) :=
  match at_pc with
  | AtEntry =>
      match mgrs h !! self with
      | None => None
      | Some m =>
          match lookup_pending ident m with
          | None => Some (ELookup t None, Returned (RBool false), h)
          | Some req =>
              Some (ELookup t (Some req), AtSend req (fail_reply e), h)
          end
      end
  | AtSend req v => chan_send t req v h
  | AtDeregister =>
      match deregister_at self ident h with
      | None => None
      | Some h' =>
          Some (EDeregister t self ident (entry_at self ident h),
                Returned (RBool true), h')
      end
  | Returned _ => None
  end.

Section Semantics.

(** Functions of the webwire library that [AwaitReply] calls. *)
Variable TranslateContextError : error -> error.
Variable NewTimeoutErr : error -> error.

(** What [AwaitReply] returns in each case of its [select]. *)
Definition AwaitReply_result (c : select_case) : webwire_Payload * error :=
  match c with
  | CtxDone e => (None, TranslateContextError (Some e))
  | TimerFired =>
      (Some empty_EncodedPayload, NewTimeoutErr (Some (Errorf "timed out")))
  | ReplyReceived v =>
      match Error v with
      | Some e => (None, Some e)
      | None =>
          match Reply v with
          | None => (Some empty_EncodedPayload, None)
          | Some p => (Some p, None)
          end
      end
  end.

(** [func (req *Request) AwaitReply(ctx)], once the [select] has committed
    to case [c]: the effect on the heap and the values returned.  Receiving
    the reply itself is the channel's business (see [step]). *)
Definition AwaitReply (req : Request) (c : select_case) (h : Heap)
  : option (webwire_Payload * error * Heap) :=
  match c with
  | CtxDone _ | TimerFired =>
      match deregister_at (manager req) (identifier req) h with
      | None => None
      | Some h' => Some (AwaitReply_result c, h')
      end
  | ReplyReceived _ => Some (AwaitReply_result c, h)
  end.

(** The program point of an [AwaitReply] that has returned through [c]. *)
Definition await_returned (c : select_case) : pc :=
  Returned (RReply (AwaitReply_result c).1 (AwaitReply_result c).2).

(** The select of goroutine [t] commits to the abandoning case [c]
    (cancellation or timeout). *)
Definition abandon (t : nat) (c : select_case) (timed_out : bool) (s : State)
  : option (event * State) :=
  match procs s !! t with
  | Some {| p_call := CAwaitReply p; p_pc := AtEntry |} =>
      match reqs (heap s) !! p with
      | None => None
      | Some req =>
          match AwaitReply req c (heap s) with
          | None => None
          | Some (res, h') =>
              Some (EAbandon t (manager req) (identifier req) timed_out
                      (entry_at (manager req) (identifier req) (heap s)),
                    set_proc t (CAwaitReply p) (Returned (RReply res.1 res.2))
                      (set_heap h' s))
          end
      end
  | _ => None
  end.

(** One step of the system under the scheduler's choice [act]: the event it
    shows and the next state, or [None] where the choice is not enabled.
    [Create] and the locked sections of the other methods are atomic; a
    send on the unbuffered reply channel happens only together with the
    receive in a waiting [select]; a [select] with several ready cases may
    take any of them. *)
Definition step (act : action) (s : State) : option (event * State) :=
  let h := heap s in
  match act with
  | ANew =>
      let a := fresh (dom (mgrs h)) in
      Some (ENew a,
            set_heap {| mgrs := <[a := NewRequestManager]> (mgrs h);
                        reqs := reqs h; chans := chans h |} s)
  | ACreate a tmo =>
      match Create a tmo h with
      | None => None
      | Some (p, h') =>
          match reqs h' !! p with
          | None => None
          | Some r => Some (ECreate a p r, set_heap h' s)
          end
      end
  | AGo t c =>
      match procs s !! t with
      | Some _ => None
      | None =>
          let valid :=
            match c with
            | CFulfill a _ _ | CFail a _ _ => bool_decide (is_Some (mgrs h !! a))
            | CAwaitReply p => bool_decide (is_Some (reqs h !! p))
            end in
          if valid then Some (EGo t c, set_proc t c AtEntry s) else None
      end
  | ARun t =>
      match procs s !! t with
      | None => None
      | Some {| p_call := c; p_pc := at_pc |} =>
          let next :=
            match c with
            | CFulfill a ident payload => Fulfill a ident payload t at_pc h
            | CFail a ident e => Fail a ident e t at_pc h
            | CAwaitReply _ => None (* blocked in its select *)
            end in
          match next with
          | None => None
          | Some (ev, pc', h') => Some (ev, set_proc t c pc' (set_heap h' s))
          end
      end
  | AHandoff ts tr =>
      match procs s !! ts, procs s !! tr with
      | Some {| p_call := cs; p_pc := AtSend req v |},
        Some {| p_call := CAwaitReply p; p_pc := AtEntry |} =>
          match reqs h !! req, reqs h !! p with
          | Some r, Some r' =>
              match chans h !! reply_ch r with
              | Some {| chan_cap := _; chan_buf := [] |} =>
                  if bool_decide (reply_ch r = reply_ch r') then
                    Some (EHandoff ts tr v,
                          set_proc tr (CAwaitReply p)
                            (await_returned (ReplyReceived v))
                            (set_proc ts cs AtDeregister s))
                  else None
              | _ => None
              end
          | _, _ => None
          end
      | _, _ => None
      end
  | ARecv t =>
      match procs s !! t with
      | Some {| p_call := CAwaitReply p; p_pc := AtEntry |} =>
          match reqs h !! p with
          | None => None
          | Some r =>
              match chans h !! reply_ch r with
              | Some {| chan_cap := n; chan_buf := v :: rest |} =>
                  Some (ERecv t v,
                        set_proc t (CAwaitReply p)
                          (await_returned (ReplyReceived v))
                          (set_heap
                             {| mgrs := mgrs h; reqs := reqs h;
                                chans :=
                                  <[reply_ch r :=
                                      {| chan_cap := n; chan_buf := rest |}]>
                                    (chans h) |} s))
              | _ => None
              end
          end
      | _ => None
      end
  | ACtxDone t e => abandon t (CtxDone e) false s
  | ATimer t => abandon t TimerFired true s
  end.

(** Running a schedule from left to right. *)
Fixpoint run (acts : list action) (s : State) : option (list event * State) :=
  match acts with
  | [] => Some ([], s)
  | act :: rest =>
      match step act s with
      | None => None
      | Some (ev, s') =>
          match run rest s' with
          | None => None
          | Some (evs, s'') => Some (ev :: evs, s'')
          end
      end
  end.

End Semantics.

(** ** Observations on runs *)

(** The identifiers returned by the calls of [Create] on manager [a], in
    the order of the calls. *)
Fixpoint created (a : loc) (evs : list event) : list RequestIdentifier :=
  match evs with
  | [] => []
  | ECreate a' _ r :: rest =>
      if bool_decide (a' = a) then identifier r :: created a rest
      else created a rest
  | _ :: rest => created a rest
  end.

(** The event is a claim of the entry of [ident] in the table of [a]:
    a [deregister] that found the entry there and deleted it. *)
Definition is_claim (a : loc) (ident : RequestIdentifier) (ev : event) : bool :=
  match ev with
  | EAbandon _ a' ident' _ (Some _) | EDeregister _ a' ident' (Some _) =>
      bool_decide (a' = a ∧ ident' = ident)
  | _ => false
  end.

Definition claims (a : loc) (ident : RequestIdentifier) (evs : list event)
  : list event :=
  filter (λ ev, is_claim a ident ev = true) evs.

(** Every key of a pending table leads to a request that carries this key
    and points back to the manager holding the table. *)
Definition table_consistent (h : Heap) : Prop :=
  ∀ a m k p,
    mgrs h !! a = Some m → pending m !! k = Some p →
    ∃ r, reqs h !! p = Some r ∧ identifier r = k ∧ manager r = a.

(** The identifier is in the pending table of manager [a]. *)
Definition is_pending_at (a : loc) (ident : RequestIdentifier) (h : Heap)
  : bool :=
  match mgrs h !! a with
  | None => false
  | Some m => IsPending ident m
  end.

(** ** Library functions used to run the semantics *)

(** Modelled from the spec: [webwire.TranslateContextError] is not among the
    sources; the spec names the outcome of a fired cancellation signal
    [Canceled].  The two context errors are wrapped, nothing else is. *)
Definition translate_context_error (e : error) : error :=
  match e with
  | Some ContextCanceled => Some (Wrapped "Canceled" ContextCanceled)
  | Some ContextDeadlineExceeded =>
      Some (Wrapped "DeadlineExceeded" ContextDeadlineExceeded)
  | _ => None
  end.

(** Modelled from the spec: [webwire.NewTimeoutErr] is not among the sources;
    the spec names the outcome of an elapsed timeout [Timeout]. *)
Definition new_timeout_err (e : error) : error :=
  match e with
  | Some c => Some (Wrapped "Timeout" c)
  | None => Some (Wrapped "Timeout" (Errorf ""))
  end.

Definition payload_P : pld_Payload := {| Encoding := 0; Data := [80] |}.
Definition payload_Q : pld_Payload := {| Encoding := 0; Data := [81] |}.
Definition id1 : RequestIdentifier := PutUint64 1.

(** One manager, one request, resolved by [Fulfill] while [AwaitReply]
    waits. *)
Definition sched_fulfilled : list action :=
  [ ANew; ACreate 0%nat 1000;
    AGo 0%nat (CFulfill 0%nat id1 payload_P); ARun 0%nat;
    AGo 1%nat (CAwaitReply 0%nat); AHandoff 0%nat 1%nat; ARun 0%nat ].

(** The same, stopped right after the reply was handed over. *)
Definition sched_handed_over : list action :=
  [ ANew; ACreate 0%nat 1000;
    AGo 0%nat (CFulfill 0%nat id1 payload_P); ARun 0%nat;
    AGo 1%nat (CAwaitReply 0%nat); AHandoff 0%nat 1%nat ].

(** [Fulfill] has found the entry, then the waiting side times out. *)
Definition sched_timeout_wins : list action :=
  [ ANew; ACreate 0%nat 1000;
    AGo 0%nat (CFulfill 0%nat id1 payload_P); ARun 0%nat;
    AGo 1%nat (CAwaitReply 0%nat); ATimer 1%nat ].


(** Three requests on one manager. *)
Definition sched_three_creates : list action :=
  [ ANew; ACreate 0%nat 10; ACreate 0%nat 20; ACreate 0%nat 30 ].

(** A late duplicate of the reply is called. *)
Definition sched_duplicate_call : list action :=
  [ AGo 2%nat (CFulfill 0%nat id1 payload_Q) ].

(** The request is resolved, then the duplicate is called. *)
Definition sched_duplicate_called : list action :=
  sched_fulfilled ++ sched_duplicate_call.

(** [Fulfill] has been called on a pending identifier. *)
Definition sched_called : list action :=
  [ ANew; ACreate 0%nat 1000; AGo 0%nat (CFulfill 0%nat id1 payload_P) ].

(** [Fulfill] has found the entry and stands at its send. *)
Definition sched_found : list action := sched_called ++ [ ARun 0%nat ].

(** [Fulfill] stands at its send and [AwaitReply] at its [select]. *)
Definition sched_both : list action :=
  sched_found ++ [ AGo 1%nat (CAwaitReply 0%nat) ].

(** [AwaitReply] waits and nothing has resolved the request. *)
Definition sched_waiting : list action :=
  [ ANew; ACreate 0%nat 1000; AGo 1%nat (CAwaitReply 0%nat) ].

(** The events and the state a schedule leads to with the library
    functions above; the start state where the schedule cannot run. *)
Definition outcome (acts : list action) (s : State) : list event * State :=
  match run translate_context_error new_timeout_err acts s with
  | Some res => res
  | None => ([], s)
  end.

Definition trace_of (acts : list action) : list event := (outcome acts init).1.
Definition state_of (acts : list action) : State := (outcome acts init).2.

(** ** Further observations *)

(** [func (req *Request) Identifier() RequestIdentifier] *)
Definition Identifier (req : Request) : RequestIdentifier := identifier req.

(** A well-formed [[8]byte]: eight values below 256. *)
Definition is_byte_array8 (b : list Z) : Prop :=
  length b = 8%nat ∧ Forall (λ x, 0 ≤ x < 256) b.

(** The event is a [deregister] on manager [a] that deleted an entry. *)
Definition removes_at (a : loc) (ev : event) : bool :=
  match ev with
  | EAbandon _ a' _ _ (Some _) | EDeregister _ a' _ (Some _) =>
      bool_decide (a' = a)
  | _ => false
  end.

Definition removals (a : loc) (evs : list event) : list event :=
  filter (λ ev, removes_at a ev = true) evs.

(** [manager.PendingRequests()] through the pointer [a]. *)
Definition pending_count (a : loc) (h : Heap) : nat :=
  match mgrs h !! a with
  | None => 0%nat
  | Some m => PendingRequests m
  end.

(** The action starts an [AwaitReply] on the handle [p]. *)
Definition starts_await (p : loc) (act : action) : bool :=
  match act with
  | AGo _ (CAwaitReply p') => bool_decide (p' = p)
  | _ => false
  end.

(** The goroutine is an [AwaitReply] on the handle [p] at its [select]. *)
Definition is_waiting (p : loc) (pr : proc) : bool :=
  match pr with
  | {| p_call := CAwaitReply p'; p_pc := AtEntry |} => bool_decide (p' = p)
  | _ => false
  end.

(** No [AwaitReply] on the handle [p] is at its [select]. *)
Definition no_waiter (p : loc) (s : State) : Prop :=
  map_Forall (λ _ pr, is_waiting p pr = false) (procs s).

(** The event starts an [AwaitReply] on the handle [p]. *)
Definition is_await_start (p : loc) (ev : event) : bool :=
  match ev with
  | EGo _ (CAwaitReply p') => bool_decide (p' = p)
  | _ => false
  end.

Definition awaits_started (p : loc) (evs : list event) : list event :=
  filter (λ ev, is_await_start p ev = true) evs.

(** The resolver has got past its send. *)
Definition past_send (at_pc : pc) : Prop :=
  at_pc = AtDeregister ∨ at_pc = Returned (RBool true).


(** Further schedules. *)

(** One manager and nothing else. *)
Definition sched_new : list action := [ ANew ].

(** One manager and one request. *)
Definition sched_created : list action := [ ANew; ACreate 0%nat 1000 ].

(** The request made by [sched_created]. *)
Definition request1 : Request :=
  {| manager := 0%nat; identifier := id1; timeout := 1000;
     reply_ch := 0%nat |}.

(** One request, resolved by [Fail] with a nil error while [AwaitReply]
    waits. *)
Definition sched_failed : list action :=
  [ ANew; ACreate 0%nat 1000;
    AGo 0%nat (CFail 0%nat id1 None); ARun 0%nat;
    AGo 1%nat (CAwaitReply 0%nat); AHandoff 0%nat 1%nat; ARun 0%nat ].

(** [AwaitReply] waits and its timer fires. *)
Definition sched_timed_out : list action := sched_waiting ++ [ ATimer 1%nat ].

(** A further request and a further resolver call, none of them an
    [AwaitReply]. *)
Definition sched_busy : list action :=
  [ ACreate 0%nat 5; AGo 5%nat (CFulfill 0%nat id1 payload_Q); ARun 5%nat ].

(** ** The validator of message contents (package [validator]) *)

Module validator.

(** [uint32(length)]: the conversion keeps the low 32 bits. *)
Definition uint32 (n : Z) : Z := n mod 2 ^ 32.

(** [len(contents)]: the number of bytes of the string. *)
Definition len (contents : string) : Z := Z.of_nat (String.length contents).

(** [type validator struct]: the two [uint32] bounds [MessageContents]
    reads. *)
Record validator := { MinMessageLength : Z; MaxMessageLength : Z }.

Section MessageContents.

(** The package's [Errorf] is not among the sources.  It is taken as a
    parameter: from the format and the [%d] arguments to an [error], the
    interface value, [None] for nil. *)
Context {E : Type}.
Variable Errorf : string → list Z → option E.

(** [func (vld *validator) MessageContents(contents string) error] *)
Definition MessageContents (vld : validator) (contents : string) : option E :=
  let length := len contents in
  if uint32 length <? MinMessageLength vld then
    Errorf "invalid message contents: too short (%d / %d)"
      [length; MinMessageLength vld]
  else if uint32 length >? MaxMessageLength vld then
    Errorf "invalid message contents: too long (%d / %d)"
      [length; MaxMessageLength vld]
  else None.

End MessageContents.

(** An [Errorf] that keeps what it was called with, to run the validator. *)
Definition errorf_record (format : string) (args : list Z)
  : option (string * list Z) := Some (format, args).

End validator.

(** ** The [Login] resolver (package [resolver]) *)

Module resolver.

(** [sessinfo.SessionInfo], with the two fields [Login] reads and writes. *)
Record SessionInfo {I U : Type} := { UserIdentifier : I; UserType : U }.
Arguments SessionInfo : clear implicits.

(** [api.LoginParams] *)
Record LoginParams := { Username : string; Password : string }.

(** The user returned by the engine, with its fields [Identifier] and
    [Type]. *)
Record User {I U : Type} := { Identifier : I; Type_ : U }.
Arguments User : clear implicits.

(** [wwr.ReqErr], with the two fields of the literal. *)
Record ReqErr := { Code : string; Message : string }.

(** The calls [Login] makes on the engine, the password hasher, the
    connection and the resolver's log. *)
Inductive effect {I U E : Type} :=
  | CallAuthenticateUser (username : string)
  | CallCompare (password actual : string)
  | CallCreateSession (info : SessionInfo I U)
  | CallLogInternalError (e : option E).
Arguments effect : clear implicits.

Section Login.

(** User identifiers, user types and non-nil error values belong to other
    packages; [error] is [option E], [None] for nil. *)
Context {I U E : Type} `{EqDecision U}.

(** [api.UtGuest], [session.UserType.String()] and
    [engiface.ErrInvalidRequest.String()]. *)
Variable UtGuest : U.
Variable UserType_String : U → string.
Variable ErrInvalidRequest_String : string.

(** A [wwr.ReqErr] returned as an [error]. *)
Variable ReqErr_error : ReqErr → E.

(** What the collaborators answer.  [Login] calls each of them at most once,
    so an answer is a function of the arguments of the call. *)
Variable AuthenticateUser : string → User I U * string * option E.
Variable Compare : string → string → bool.
Variable CreateSession : SessionInfo I U → option E.
Variable logInternalError : option E → option E.

(** [engiface.NewError(engiface.ErrWrongCredentials)] *)
Variable NewError_ErrWrongCredentials : option E.

(** [func (rsv *resolver) Login(session, connection, params)
    (interface{}, error)]: the calls made, in order, and the error
    returned.  The first result is nil on every path. *)
Definition Login (session : SessionInfo I U) (params : LoginParams)
  : list (effect I U E) * option E :=
  if decide (UserType session ≠ UtGuest) then
    ([], Some (ReqErr_error
                 {| Code := ErrInvalidRequest_String;
                    Message := "user is already logged in as "
                               +:+ UserType_String (UserType session) |}))
  else
    let '(user, actualPassword, err) := AuthenticateUser (Username params) in
    let called := [CallAuthenticateUser (Username params)] in
    match err with
    | Some _ => (called, err)
    | None =>
        let called :=
          called ++ [CallCompare (Password params) actualPassword] in
        if negb (Compare (Password params) actualPassword) then
          (called, NewError_ErrWrongCredentials)
        else
          let info := {| UserIdentifier := Identifier user;
                         UserType := Type_ user |} in
          let called := called ++ [CallCreateSession info] in
          match CreateSession info with
          | Some e =>
              (called ++ [CallLogInternalError (Some e)],
               logInternalError (Some e))
          | None => (called, None)
          end
    end.

End Login.

(** Collaborators to run [Login] with: user types are numbers, [0] the
    guest; the engine knows one user, ["ann"] with password ["pw"]; the
    hasher compares for equality; errors are strings. *)
Definition engine_one_user (username : string)
  : User nat nat * string * option string :=
  if decide (username = "ann") then
    ({| Identifier := 7%nat; Type_ := 1%nat |}, "pw", None)
  else ({| Identifier := 0%nat; Type_ := 0%nat |}, "", Some "user not found").

Definition hasher_equal (password actual : string) : bool :=
  bool_decide (password = actual).

Definition login_with
  (CreateSession : SessionInfo nat nat → option string)
  (session : SessionInfo nat nat) (params : LoginParams)
  : list (effect nat nat string) * option string :=
  Login 0%nat (λ u, if decide (u = 0%nat) then "guest" else "user")
    "InvalidRequest" (λ e, Code e +:+ ": " +:+ Message e)
    engine_one_user hasher_equal CreateSession
    (λ _, Some "InternalError") (Some "WrongCredentials") session params.

End resolver.

(** Bounds to run the validator with. *)
Definition bounds_2_5 : validator.validator :=
  {| validator.MinMessageLength := 2; validator.MaxMessageLength := 5 |}.

Definition bounds_5_2 : validator.validator :=
  {| validator.MinMessageLength := 5; validator.MaxMessageLength := 2 |}.

(** ** Readings of the specification that the code is compared with *)

(** The specification's reading of the reply channel: every request made by
    [Create] has an outcome slot of capacity one. *)
Definition reply_slot_capacity_one : Prop :=
  ∀ a tmo h p h',
    Create a tmo h = Some (p, h') →
    ∃ r ch, reqs h' !! p = Some r ∧ chans h' !! reply_ch r = Some ch ∧
            chan_cap ch = 1%nat.

Section Properties.

Variable TranslateContextError : error -> error.
Variable NewTimeoutErr : error -> error.

Abbreviation step := (step TranslateContextError NewTimeoutErr).
Abbreviation run := (run TranslateContextError NewTimeoutErr).
Abbreviation AwaitReply := (AwaitReply TranslateContextError NewTimeoutErr).
Abbreviation AwaitReply_result :=
  (AwaitReply_result TranslateContextError NewTimeoutErr).
Abbreviation await_returned :=
  (await_returned TranslateContextError NewTimeoutErr).


(** The specification's reading of [Fulfill] on a pending identifier: one
    atomic step that removes the entry, leaves the success outcome in the
    entry's slot and returns [true]; and every [AwaitReply] on the handle
    that has returned afterwards has returned the payload with a nil
    error. *)
Definition fulfill_postcondition : Prop :=
  ∀ acts evs s t a ident P,
    run acts init = Some (evs, s) →
    procs s !! t = Some {| p_call := CFulfill a ident P; p_pc := AtEntry |} →
    is_pending_at a ident (heap s) = true →
    ∃ ev s' p r ch,
      step (ARun t) s = Some (ev, s') ∧
      procs s' !! t =
        Some {| p_call := CFulfill a ident P; p_pc := Returned (RBool true) |} ∧
      is_pending_at a ident (heap s') = false ∧
      entry_at a ident (heap s) = Some p ∧
      reqs (heap s') !! p = Some r ∧
      chans (heap s') !! reply_ch r = Some ch ∧
      chan_buf ch = [fulfill_reply P] ∧
      ∀ acts' evs' s'' tA res,
        run acts' s' = Some (evs', s'') →
        procs s'' !! tA =
          Some {| p_call := CAwaitReply p; p_pc := Returned res |} →
        res = RReply (Some {| Payload := P |}) None.

(** The specification's reading of the end of [AwaitReply]: right after the
    step by which the call returns, its identifier is not pending. *)
Definition removed_when_await_returns : Prop :=
  ∀ acts evs s act ev s' t p r res,
    run acts init = Some (evs, s) →
    step act s = Some (ev, s') →
    procs s !! t = Some {| p_call := CAwaitReply p; p_pc := AtEntry |} →
    procs s' !! t = Some {| p_call := CAwaitReply p; p_pc := Returned res |} →
    reqs (heap s') !! p = Some r →
    is_pending_at (manager r) (identifier r) (heap s') = false.

(** ** Runs as sequences of steps *)

Inductive exec (s0 : State) : list event → State → Prop :=
  | exec_nil : exec s0 [] s0
  | exec_snoc evs s act ev s' :
      exec s0 evs s → step act s = Some (ev, s') → exec s0 (evs ++ [ev]) s'.

(** The reply of resolver call [c] has been received: some [AwaitReply] on
    the handle of the request that [c] names has returned what the [select]
    makes of that reply. *)
Definition delivered (s : State) (c : call) : Prop :=
  ∃ a ident v tA p r,
    call_target c = Some (a, ident) ∧ call_reply c = Some v ∧
    procs s !! tA =
      Some {| p_call := CAwaitReply p;
              p_pc := await_returned (ReplyReceived v) |} ∧
    reqs (heap s) !! p = Some r ∧ identifier r = ident ∧ manager r = a.

(** What holds of every state a run can reach. *)
Record wf (s : State) : Prop := {
  wf_chan : ∀ l ch, chans (heap s) !! l = Some ch → ch = make_chan;
  wf_req_chan : ∀ p r,
    reqs (heap s) !! p = Some r → is_Some (chans (heap s) !! reply_ch r);
  wf_req_mgr : ∀ p r,
    reqs (heap s) !! p = Some r → is_Some (mgrs (heap s) !! manager r);
  wf_chan_inj : ∀ p1 p2 r1 r2,
    reqs (heap s) !! p1 = Some r1 → reqs (heap s) !! p2 = Some r2 →
    reply_ch r1 = reply_ch r2 → p1 = p2;
  wf_table : table_consistent (heap s);
  wf_lastID : ∀ a m,
    mgrs (heap s) !! a = Some m → 0 ≤ lastID m < uint64_modulus;
  wf_target : ∀ t c pc a ident,
    procs s !! t = Some {| p_call := c; p_pc := pc |} →
    call_target c = Some (a, ident) → is_Some (mgrs (heap s) !! a);
  wf_await : ∀ t p pc,
    procs s !! t = Some {| p_call := CAwaitReply p; p_pc := pc |} →
    is_Some (reqs (heap s) !! p);
  wf_send : ∀ t c req v,
    procs s !! t = Some {| p_call := c; p_pc := AtSend req v |} →
    ∃ a ident r,
      call_target c = Some (a, ident) ∧ call_reply c = Some v ∧
      reqs (heap s) !! req = Some r ∧ identifier r = ident ∧ manager r = a;
  wf_dereg : ∀ t c,
    procs s !! t = Some {| p_call := c; p_pc := AtDeregister |} →
    delivered s c;
  wf_true : ∀ t c,
    procs s !! t = Some {| p_call := c; p_pc := Returned (RBool true) |} →
    delivered s c;
}.

(** Whether the identifier is pending, as a number. *)
Definition pend (a : loc) (ident : RequestIdentifier) (h : Heap) : nat :=
  if is_pending_at a ident h then 1%nat else 0%nat.

(** How often the identifier occurs in a list of identifiers. *)
Definition occurrences (ident : RequestIdentifier)
    (l : list RequestIdentifier) : nat :=
  length (filter (λ x, x = ident) l).

(** What holds of every run from the initial state and the state it
    reaches. *)
Record tinv (evs : list event) (s : State) : Prop := {
  ti_fresh : ∀ a, mgrs (heap s) !! a = None → created a evs = [];
  ti_alloc : ∀ a m,
    mgrs (heap s) !! a = Some m →
    lastID m = Z.of_nat (length (created a evs)) mod uint64_modulus;
  ti_ids : ∀ a k ident,
    created a evs !! k = Some ident →
    ident = PutUint64 ((Z.of_nat k + 1) mod uint64_modulus);
  ti_claims : ∀ a ident,
    (length (claims a ident evs) + pend a ident (heap s)
     ≤ occurrences ident (created a evs))%nat;
  ti_found : ∀ t c pc a ident,
    procs s !! t = Some {| p_call := c; p_pc := pc |} →
    call_target c = Some (a, ident) →
    pc ≠ AtEntry → pc ≠ Returned (RBool false) →
    ident ∈ created a evs;
  ti_gone : ∀ t c a ident,
    procs s !! t = Some {| p_call := c; p_pc := Returned (RBool true) |} →
    call_target c = Some (a, ident) →
    Z.of_nat (length (created a evs)) < uint64_modulus →
    is_pending_at a ident (heap s) = false;
}.

(** Where the outcome [res] returned by an [AwaitReply] on the handle [p]
    comes from: the timeout, the cancellation, or the reply of a resolver
    call for the manager and the identifier of the request, which is past
    its send. *)
Definition outcome_source (s : State) (p : loc) (res : result) : Prop :=
  ∃ r,
    reqs (heap s) !! p = Some r ∧
    (res = RReply (Some empty_EncodedPayload)
             (NewTimeoutErr (Some (Errorf "timed out"))) ∨
     (∃ e, res = RReply None (TranslateContextError (Some e))) ∨
     (∃ ts cs pcs v,
        procs s !! ts = Some {| p_call := cs; p_pc := pcs |} ∧
        (pcs = AtDeregister ∨ pcs = Returned (RBool true)) ∧
        call_target cs = Some (manager r, Identifier r) ∧
        call_reply cs = Some v ∧
        res = RReply (AwaitReply_result (ReplyReceived v)).1
                (AwaitReply_result (ReplyReceived v)).2)).

(** How the program point of goroutine [t], running call [c], can change in
    one step that shows event [ev] from state [s]: [before] is [None] when
    the goroutine did not exist. *)
Inductive moves (s : State) (ev : event) (t : nat) (c : call)
  : option pc → pc → Prop :=
  | mv_same at_pc :
      (∀ q, ev ≠ ELookup t q) → ev ≠ EGo t c →
      moves s ev t c (Some at_pc) at_pc
  | mv_go : ev = EGo t c → moves s ev t c None AtEntry
  | mv_miss :
      ev = ELookup t None → is_Some (call_target c) →
      moves s ev t c (Some AtEntry) (Returned (RBool false))
  | mv_hit q v :
      ev = ELookup t (Some q) → call_reply c = Some v →
      moves s ev t c (Some AtEntry) (AtSend q v)
  | mv_sent q v tr :
      ev = EHandoff t tr v →
      procs s !! tr = Some {| p_call := CAwaitReply q; p_pc := AtEntry |} →
      moves s ev t c (Some (AtSend q v)) AtDeregister
  | mv_dereg a ident rm :
      ev = EDeregister t a ident rm →
      moves s ev t c (Some AtDeregister) (Returned (RBool true))
  | mv_recv q ts cs v :
      c = CAwaitReply q → ev = EHandoff ts t v →
      procs s !! ts = Some {| p_call := cs; p_pc := AtSend q v |} →
      moves s ev t c (Some AtEntry) (await_returned (ReplyReceived v))
  | mv_abandon q a ident b rm pl e :
      c = CAwaitReply q → ev = EAbandon t a ident b rm →
      moves s ev t c (Some AtEntry) (Returned (RReply pl e)).

(** What links the goroutines to the events of the run that led to the
    state, as far as the handle [p] is concerned. *)
Record linv (p : loc) (evs : list event) (s : State) : Prop := {
  li_await : ∀ t at_pc,
    procs s !! t = Some {| p_call := CAwaitReply p; p_pc := at_pc |} →
    EGo t (CAwaitReply p) ∈ evs;
  li_found : ∀ t q,
    ELookup t (Some q) ∈ evs →
    ∃ c at_pc,
      procs s !! t = Some {| p_call := c; p_pc := at_pc |} ∧
      ((∃ v, at_pc = AtSend q v) ∨ past_send at_pc);
  li_past : ∀ t c at_pc,
    procs s !! t = Some {| p_call := c; p_pc := at_pc |} →
    past_send at_pc → ELookup t (Some p) ∈ evs →
    ∃ tA res,
      procs s !! tA =
        Some {| p_call := CAwaitReply p; p_pc := Returned res |};
}.

(** With one [AwaitReply] on the handle [p]: once a resolver that found [p]
    is past its send, nobody waits on [p] and no other resolver that found
    [p] is past its send. *)
Definition single_inv (p : loc) (evs : list event) (s : State) : Prop :=
  ∀ t1 c1 pc1,
    ELookup t1 (Some p) ∈ evs →
    procs s !! t1 = Some {| p_call := c1; p_pc := pc1 |} →
    past_send pc1 →
    (∀ tA, procs s !! tA
           ≠ Some {| p_call := CAwaitReply p; p_pc := AtEntry |}) ∧
    (∀ t2 c2 pc2,
       ELookup t2 (Some p) ∈ evs →
       procs s !! t2 = Some {| p_call := c2; p_pc := pc2 |} →
       past_send pc2 → t2 = t1).


(** Case analysis on a step. *)
Ltac step_inv H :=
  unfold step, abandon, AwaitReply, Fulfill, Fail, chan_send, Create,
    deregister_at, lookup_pending in H;
  repeat (case_match; simplify_eq/=; try done);
  repeat match goal with
  | E : <[?i:=_]> _ !! ?i = Some _ |- _ =>
      rewrite lookup_insert_eq in E; simplify_eq/=
  end.

Ltac bool_facts :=
  repeat match goal with
  | B : bool_decide _ = true |- _ => apply bool_decide_eq_true in B
  | B : bool_decide _ = false |- _ => apply bool_decide_eq_false in B
  end.

Ltac map_cases :=
  repeat match goal with
  | H : <[_:=_]> _ !! _ = _ |- _ =>
      rewrite lookup_insert in H; case_decide; simplify_eq/=
  | H : delete _ _ !! _ = Some _ |- _ =>
      apply lookup_delete_Some in H; destruct H
  end.

(** ** Identifier encoding *)

Lemma byte_at_div v i :
  0 ≤ i → byte_at v i = (v / 2 ^ (8 * i)) mod 256.
Proof.
  intros Hi. unfold byte_at.
  rewrite Z.shiftr_div_pow2 by lia.
  change 255 with (Z.ones 8). rewrite Z.land_ones by lia. reflexivity.
Qed.

Lemma byte_at_range v i : 0 ≤ i → 0 ≤ byte_at v i < 256.
Proof. intros Hi. rewrite byte_at_div by done. apply Z.mod_pos_bound. lia. Qed.

Lemma lor_shiftl_byte x y :
  0 ≤ x < 256 → Z.lor x (Z.shiftl y 8) = x + 256 * y.
Proof.
  intros Hx.
  assert (Hland : Z.land x (Z.shiftl y 8) = 0).
  { apply Z.bits_inj'. intros n Hn. rewrite Z.land_spec, Z.bits_0.
    destruct (decide (n < 8)) as [Hlt|Hge].
    - rewrite (Z.shiftl_spec_low y 8 n) by lia. apply andb_false_r.
    - assert (Hb : Z.testbit x n = false).
      { destruct (decide (x = 0)) as [->|Hx0]; [apply Z.bits_0|].
        apply Z.bits_above_log2; [lia|].
        assert (Z.log2 x < 8); [|lia].
        apply Z.log2_lt_pow2; lia. }
      rewrite Hb. reflexivity. }
  rewrite <- Z.lxor_lor by done.
  rewrite <- Z.add_nocarry_lxor by done.
  rewrite Z.shiftl_mul_pow2 by lia. lia.
Qed.

Lemma Uint64_PutUint64 v :
  0 ≤ v < uint64_modulus → Uint64 (PutUint64 v) = v.
Proof.
  unfold uint64_modulus. intros Hv. unfold PutUint64. cbn [Uint64].
  rewrite Z.shiftl_0_l.
  rewrite !lor_shiftl_byte by (apply byte_at_range; lia).
  rewrite Z.lor_0_r.
  rewrite !byte_at_div by lia. simpl Z.mul.
  change (2 ^ 0) with 1. change (2 ^ 8) with 256.
  change (2 ^ 16) with 65536. change (2 ^ 24) with 16777216.
  change (2 ^ 32) with 4294967296. change (2 ^ 40) with 1099511627776.
  change (2 ^ 48) with 281474976710656.
  change (2 ^ 56) with 72057594037927936.
  change (2 ^ 64) with 18446744073709551616 in Hv.
  Z.div_mod_to_equations. lia.
Qed.

Lemma PutUint64_inj v w :
  0 ≤ v < uint64_modulus → 0 ≤ w < uint64_modulus →
  PutUint64 v = PutUint64 w → v = w.
Proof.
  intros Hv Hw Heq.
  rewrite <- (Uint64_PutUint64 v), <- (Uint64_PutUint64 w) by done.
  by rewrite Heq.
Qed.

Lemma uint64_incr_range v : 0 ≤ uint64_incr v < uint64_modulus.
Proof. unfold uint64_incr, uint64_modulus. apply Z.mod_pos_bound. lia. Qed.

(** ** The manager's methods, one at a time *)

Lemma deregister_absent ident m :
  pending m !! ident = None → deregister ident m = m.
Proof.
  intros Hnone. destruct m as [l pd]. unfold deregister. simpl in *.
  by rewrite delete_id.
Qed.

Lemma IsPending_false ident m :
  IsPending ident m = false ↔ pending m !! ident = None.
Proof. unfold IsPending. destruct (pending m !! ident); naive_solver. Qed.

Lemma IsPending_deregister ident m :
  IsPending ident (deregister ident m) = false.
Proof. apply IsPending_false. simpl. apply lookup_delete_eq. Qed.

Lemma deregister_at_absent a ident h m :
  mgrs h !! a = Some m → pending m !! ident = None →
  deregister_at a ident h = Some h.
Proof.
  intros Hm Hnone. unfold deregister_at. rewrite Hm.
  rewrite deregister_absent by done. rewrite insert_id by done.
  by destruct h.
Qed.

(** C10. [deregister] is idempotent: applying it twice is applying it once,
    applying it where the identifier is absent changes nothing, and an
    [AwaitReply] whose identifier is already gone leaves the heap as it was,
    whichever case its [select] takes. *)
Theorem deregister_idempotent (ident : RequestIdentifier) (m : RequestManager) :
  deregister ident (deregister ident m) = deregister ident m ∧
  (IsPending ident m = false → deregister ident m = m) ∧
  (IsPending ident m = false →
   ∀ req h c, identifier req = ident → mgrs h !! manager req = Some m →
     AwaitReply req c h = Some (AwaitReply_result c, h)).
Proof.
  split; [|split].
  - unfold deregister. simpl. by rewrite delete_delete_eq.
  - intros Hp. apply deregister_absent. by apply IsPending_false.
  - intros Hp req h c <- Hm. apply IsPending_false in Hp.
    destruct c; simpl; try done;
      by rewrite (deregister_at_absent _ _ _ m).
Qed.


(** ** Runs as sequences of steps *)

Lemma run_cons act acts s :
  run (act :: acts) s =
  match step act s with
  | None => None
  | Some (ev, s') =>
      match run acts s' with
      | None => None
      | Some (evs, s'') => Some (ev :: evs, s'')
      end
  end.
Proof. reflexivity. Qed.

Lemma run_app acts1 acts2 s evs1 s1 evs2 s2 :
  run acts1 s = Some (evs1, s1) → run acts2 s1 = Some (evs2, s2) →
  run (acts1 ++ acts2) s = Some (evs1 ++ evs2, s2).
Proof.
  revert s evs1. induction acts1 as [|a acts1 IH]; intros s evs1.
  - simpl. by intros [= <- <-] ->.
  - rewrite <- app_comm_cons, !run_cons.
    destruct (step a s) as [[ev s']|]; [|done].
    destruct (run acts1 s') as [[evs s'']|] eqn:Hr; [|done].
    intros [= <- <-] H2. by rewrite (IH _ _ Hr H2).
Qed.

Lemma run_app_inv acts1 acts2 s evs s2 :
  run (acts1 ++ acts2) s = Some (evs, s2) →
  ∃ evs1 s1 evs2,
    run acts1 s = Some (evs1, s1) ∧ run acts2 s1 = Some (evs2, s2) ∧
    evs = evs1 ++ evs2.
Proof.
  revert s evs. induction acts1 as [|a acts1 IH]; intros s evs.
  - simpl. intros Hr. by exists [], s, evs.
  - rewrite <- app_comm_cons, !run_cons.
    destruct (step a s) as [[ev s']|]; [|done].
    destruct (run (acts1 ++ acts2) s') as [[evs' s'']|] eqn:Hr; [|done].
    intros [= <- <-].
    destruct (IH _ _ Hr) as (evs1 & s1 & evs2 & -> & H2 & ->).
    by exists (ev :: evs1), s1, evs2.
Qed.

Lemma run_snoc acts act s evs s' :
  run (acts ++ [act]) s = Some (evs, s') →
  ∃ evs0 s0 ev,
    run acts s = Some (evs0, s0) ∧ step act s0 = Some (ev, s') ∧
    evs = evs0 ++ [ev].
Proof.
  intros (evs1 & s1 & evs2 & Hr1 & Hr2 & ->)%run_app_inv.
  simpl in Hr2. destruct (step act s1) as [[ev s'']|] eqn:Hst; [|done].
  injection Hr2 as <- <-. by exists evs1, s1, ev.
Qed.

Lemma run_exec acts s evs s' : run acts s = Some (evs, s') → exec s evs s'.
Proof.
  revert evs s'. induction acts as [|act acts IH] using rev_ind; intros evs s'.
  - simpl. intros [= <- <-]. constructor.
  - intros (evs0 & s0 & ev & Hr & Hst & ->)%run_snoc.
    eapply exec_snoc; eauto.
Qed.

Lemma fresh_lookup {V} (m : gmap loc V) l v :
  m !! l = Some v → l ≠ fresh (dom m).
Proof.
  intros Hl ->. apply (is_fresh (dom m)). apply elem_of_dom. eauto.
Qed.

Lemma lookup_insert_fresh {V} (m : gmap loc V) l v x :
  m !! l = Some v → <[fresh (dom m) := x]> m !! l = Some v.
Proof.
  intros Hl. rewrite lookup_insert_ne; [done|].
  symmetry. by eapply fresh_lookup.
Qed.

Lemma fresh_lookup_None {V} (m : gmap loc V) : m !! fresh (dom m) = None.
Proof. apply not_elem_of_dom. apply is_fresh. Qed.

Lemma table_consistent_step s act ev s' :
  table_consistent (heap s) → step act s = Some (ev, s') →
  table_consistent (heap s').
Proof.
  intros Htc Hst. step_inv Hst.
  all: intros a' m' k p' Hm' Hk; simpl in *.
  all: try (by eapply Htc).
  all: map_cases; try (by eapply Htc).
  - eexists. rewrite lookup_insert_eq. done.
  - edestruct Htc as (r & Hr & ? & ?); [eassumption|exact Hk|].
    exists r. rewrite lookup_insert_ne; [done|].
    symmetry. exact (fresh_lookup _ _ _ Hr).
  - edestruct Htc as (r & Hr & ? & ?); [eassumption|exact Hk|].
    exists r. rewrite lookup_insert_ne; [done|].
    symmetry. exact (fresh_lookup _ _ _ Hr).
Qed.

(** ** Preservation of well-formedness *)

Lemma wf_init : wf init.
Proof.
  split; unfold table_consistent; simpl; intros; by simplify_map_eq.
Qed.

(** In a well-formed state every channel is empty and unbuffered, which
    rules out the buffered send and the buffered receive. *)
Ltac chan_facts Hwf :=
  repeat match goal with
  | H : chans (heap _) !! _ = Some _ |- _ =>
      let E := fresh in
      pose proof (wf_chan _ Hwf _ _ H) as E; clear H;
      unfold make_chan in E; simplify_eq/=
  end.

Ltac step_wf Hwf H := step_inv H; chan_facts Hwf; bool_facts.

Lemma wf_chan_step s act ev s' :
  wf s → step act s = Some (ev, s') →
  ∀ l ch, chans (heap s') !! l = Some ch → ch = make_chan.
Proof.
  intros Hwf Hst. pose proof (wf_chan _ Hwf) as Hch.
  step_wf Hwf Hst; intros xl xch Hl; simpl in *; map_cases; eauto.
Qed.

Lemma wf_req_chan_step s act ev s' :
  wf s → step act s = Some (ev, s') →
  ∀ p r, reqs (heap s') !! p = Some r →
         is_Some (chans (heap s') !! reply_ch r).
Proof.
  intros Hwf Hst. pose proof (wf_req_chan _ Hwf) as Hrc.
  step_wf Hwf Hst; intros xp xr Hl; simpl in *; map_cases; eauto.
  all: apply lookup_insert_is_Some'; eauto.
Qed.

Lemma wf_req_mgr_step s act ev s' :
  wf s → step act s = Some (ev, s') →
  ∀ p r, reqs (heap s') !! p = Some r →
         is_Some (mgrs (heap s') !! manager r).
Proof.
  intros Hwf Hst. pose proof (wf_req_mgr _ Hwf) as Hrm.
  step_wf Hwf Hst; intros xp xr Hl; simpl in *; map_cases; eauto.
  all: apply lookup_insert_is_Some'; eauto.
Qed.

Lemma wf_chan_inj_step s act ev s' :
  wf s → step act s = Some (ev, s') →
  ∀ p1 p2 r1 r2,
    reqs (heap s') !! p1 = Some r1 → reqs (heap s') !! p2 = Some r2 →
    reply_ch r1 = reply_ch r2 → p1 = p2.
Proof.
  intros Hwf Hst. pose proof (wf_chan_inj _ Hwf) as Hinj.
  pose proof (wf_req_chan _ Hwf) as Hrc.
  step_wf Hwf Hst; intros p1 p2 q1 q2 Hq1 Hq2 Heq; simpl in *;
    map_cases; eauto.
  all: match goal with
       | H : reqs _ !! _ = Some ?r, E : reply_ch ?r = _ |- _ =>
           destruct (Hrc _ _ H) as [c Hc]; rewrite E in Hc;
           by rewrite fresh_lookup_None in Hc
       | H : reqs _ !! _ = Some ?r, E : _ = reply_ch ?r |- _ =>
           destruct (Hrc _ _ H) as [c Hc]; rewrite <- E in Hc;
           by rewrite fresh_lookup_None in Hc
       end.
Qed.


Lemma wf_lastID_step s act ev s' :
  wf s → step act s = Some (ev, s') →
  ∀ a m, mgrs (heap s') !! a = Some m → 0 ≤ lastID m < uint64_modulus.
Proof.
  intros Hwf Hst. pose proof (wf_lastID _ Hwf) as Hl.
  step_wf Hwf Hst; intros xa xm Hm; simpl in *; map_cases; eauto.
  all: try apply uint64_incr_range.
  all: try (unfold uint64_modulus; simpl; lia).
Qed.

Lemma wf_target_step s act ev s' :
  wf s → step act s = Some (ev, s') →
  ∀ t c pc a ident,
    procs s' !! t = Some {| p_call := c; p_pc := pc |} →
    call_target c = Some (a, ident) → is_Some (mgrs (heap s') !! a).
Proof.
  intros Hwf Hst. pose proof (wf_target _ Hwf) as Htg.
  step_wf Hwf Hst; intros xt xc xpc xa xi Hp Hc; simpl in *; map_cases;
    eauto.
  all: try (apply lookup_insert_is_Some'; eauto).
Qed.

Lemma wf_await_step s act ev s' :
  wf s → step act s = Some (ev, s') →
  ∀ t p pc,
    procs s' !! t = Some {| p_call := CAwaitReply p; p_pc := pc |} →
    is_Some (reqs (heap s') !! p).
Proof.
  intros Hwf Hst. pose proof (wf_await _ Hwf) as Haw.
  step_wf Hwf Hst; intros xt xp xpc Hp; simpl in *; map_cases; eauto.
  all: try (apply lookup_insert_is_Some'; eauto).
Qed.

Lemma wf_send_step s act ev s' :
  wf s → step act s = Some (ev, s') →
  ∀ t c req v,
    procs s' !! t = Some {| p_call := c; p_pc := AtSend req v |} →
    ∃ a ident r,
      call_target c = Some (a, ident) ∧ call_reply c = Some v ∧
      reqs (heap s') !! req = Some r ∧ identifier r = ident ∧ manager r = a.
Proof.
  intros Hwf Hst. pose proof (wf_send _ Hwf) as Hsd.
  pose proof (wf_table _ Hwf) as Htc.
  step_wf Hwf Hst; intros t0 c0 q0 v0 Hp; simpl in *; map_cases; eauto.
  1: { destruct (Hsd _ _ _ _ Hp) as (a1 & i1 & r1 & ? & ? & Hr1 & ? & ?).
       exists a1, i1, r1. split_and!; try done.
       by apply lookup_insert_fresh. }
  all: destruct (Htc _ _ _ _ ltac:(eassumption) ltac:(eassumption))
      as (q1 & ? & ? & ?); by eexists _, _, q1.
Qed.

Lemma delivered_mono s s' c :
  delivered s c →
  (∀ p r, reqs (heap s) !! p = Some r → reqs (heap s') !! p = Some r) →
  (∀ t p res,
     procs s !! t =
       Some {| p_call := CAwaitReply p; p_pc := Returned res |} →
     procs s' !! t =
       Some {| p_call := CAwaitReply p; p_pc := Returned res |}) →
  delivered s' c.
Proof.
  intros (a & ident & v & tA & p & r & ? & ? & HtA & Hr & ? & ?) Hreqs Hprocs.
  exists a, ident, v, tA, p, r. split_and!; try done.
  - by apply Hprocs.
  - by apply Hreqs.
Qed.

Lemma reqs_mono_step s act ev s' :
  step act s = Some (ev, s') →
  ∀ p r, reqs (heap s) !! p = Some r → reqs (heap s') !! p = Some r.
Proof.
  intros Hst. step_inv Hst; intros xp xr Hl; simpl; try done.
  by apply lookup_insert_fresh.
Qed.

Lemma returned_mono_step s act ev s' :
  step act s = Some (ev, s') →
  ∀ t c res,
    procs s !! t = Some {| p_call := c; p_pc := Returned res |} →
    procs s' !! t = Some {| p_call := c; p_pc := Returned res |}.
Proof.
  intros Hst. step_inv Hst; intros xt xc xres Hl; simpl; try done.
  all: repeat (rewrite lookup_insert; destruct (decide _); simplify_eq/=);
    done.
Qed.

Lemma wf_dereg_step s act ev s' :
  wf s → step act s = Some (ev, s') →
  ∀ t c,
    procs s' !! t = Some {| p_call := c; p_pc := AtDeregister |} →
    delivered s' c.
Proof.
  intros Hwf Hst. pose proof (wf_dereg _ Hwf) as Hdr.
  pose proof (wf_send _ Hwf) as Hsd.
  pose proof (wf_chan_inj _ Hwf) as Hinj.
  intros t c Hp.
  assert (Hmono : ∀ c, delivered s c → delivered s' c).
  { intros c' Hd. eapply delivered_mono; [done|..].
    - by eapply reqs_mono_step.
    - intros. by eapply returned_mono_step. }
  step_wf Hwf Hst; simpl in *; map_cases; eauto.
  assert (req = req0) as -> by eauto.
  destruct (Hsd _ _ _ _ H) as (a1 & i1 & q1 & ? & ? & ? & ? & ?).
  exists a1, i1, v, tr, req0, q1. simpl. split_and!; try done.
  by rewrite lookup_insert_eq.
Qed.

Lemma wf_true_step s act ev s' :
  wf s → step act s = Some (ev, s') →
  ∀ t c,
    procs s' !! t = Some {| p_call := c; p_pc := Returned (RBool true) |} →
    delivered s' c.
Proof.
  intros Hwf Hst. pose proof (wf_dereg _ Hwf) as Hdr.
  pose proof (wf_true _ Hwf) as Htr.
  intros t c Hp.
  assert (Hmono : ∀ c, delivered s c → delivered s' c).
  { intros c' Hd. eapply delivered_mono; [done|..].
    - by eapply reqs_mono_step.
    - intros. by eapply returned_mono_step. }
  step_wf Hwf Hst; simpl in *; map_cases; eauto.
Qed.

Lemma wf_step s act ev s' : wf s → step act s = Some (ev, s') → wf s'.
Proof.
  intros Hwf Hst. split.
  - by eapply wf_chan_step.
  - by eapply wf_req_chan_step.
  - by eapply wf_req_mgr_step.
  - by eapply wf_chan_inj_step.
  - eapply table_consistent_step; [|done]. by apply wf_table.
  - by eapply wf_lastID_step.
  - by eapply wf_target_step.
  - by eapply wf_await_step.
  - by eapply wf_send_step.
  - by eapply wf_dereg_step.
  - by eapply wf_true_step.
Qed.

Lemma exec_wf s0 evs s : wf s0 → exec s0 evs s → wf s.
Proof. intros Hwf Hex. induction Hex; [done|]. by eapply wf_step. Qed.

Lemma run_wf acts evs s : run acts init = Some (evs, s) → wf s.
Proof. intros Hr. eapply exec_wf; [apply wf_init|]. by eapply run_exec. Qed.

(** ** Properties of single steps and of reachable states *)

(** C9. Every key of a pending table leads to a request that carries this
    key as its identifier and whose [manager] field points to the manager
    that holds the table: every step preserves this, and it holds in every
    state a run reaches from the initial state. *)
Theorem handle_table_consistency :
  (∀ s act ev s',
     table_consistent (heap s) → step act s = Some (ev, s') →
     table_consistent (heap s')) ∧
  (∀ acts evs s, run acts init = Some (evs, s) → table_consistent (heap s)).
Proof.
  split.
  - apply table_consistent_step.
  - intros acts evs s Hr. apply wf_table. by eapply run_wf.
Qed.

Lemma lookup_miss_step s t c a ident m :
  procs s !! t = Some {| p_call := c; p_pc := AtEntry |} →
  call_target c = Some (a, ident) →
  mgrs (heap s) !! a = Some m →
  pending m !! ident = None →
  step (ARun t) s
  = Some (ELookup t None, set_proc t c (Returned (RBool false)) s).
Proof.
  intros Hp Hc Hm Hnone. unfold step. rewrite Hp.
  destruct c; simplify_eq/=; unfold Fulfill, Fail, lookup_pending;
    rewrite Hm, Hnone; done.
Qed.

(** C5. [Fulfill] and [Fail] on an identifier that is not pending return
    [false] and change nothing else: the heap (tables, counters, requests,
    channels) and every other goroutine are as before. *)
Theorem resolve_absent_noop (s : State) (t : nat) (c : call) (a : loc)
    (ident : RequestIdentifier) (m : RequestManager) :
  procs s !! t = Some {| p_call := c; p_pc := AtEntry |} →
  call_target c = Some (a, ident) →
  mgrs (heap s) !! a = Some m →
  IsPending ident m = false →
  ∃ s',
    step (ARun t) s = Some (ELookup t None, s') ∧
    procs s' !! t = Some {| p_call := c; p_pc := Returned (RBool false) |} ∧
    heap s' = heap s ∧
    (∀ t', t' ≠ t → procs s' !! t' = procs s !! t').
Proof.
  intros Hp Hc Hm Hpend. apply IsPending_false in Hpend.
  exists (set_proc t c (Returned (RBool false)) s).
  split_and!.
  - by eapply lookup_miss_step.
  - simpl. by rewrite lookup_insert_eq.
  - done.
  - intros t' Hne. simpl. by rewrite lookup_insert_ne.
Qed.

(** No send completes into a buffer where every channel is unbuffered. *)
Lemma chan_send_blocked t req v h :
  (∀ l ch, chans h !! l = Some ch → ch = make_chan) →
  chan_send t req v h = None.
Proof.
  intros Hch. unfold chan_send.
  destruct (reqs h !! req) as [r|]; [|done].
  destruct (chans h !! reply_ch r) as [ch|] eqn:Hl; [|done].
  apply Hch in Hl. by subst ch.
Qed.

Lemma send_blocked s t c req v :
  wf s →
  procs s !! t = Some {| p_call := c; p_pc := AtSend req v |} →
  step (ARun t) s = None.
Proof.
  intros Hwf Hp. unfold step. rewrite Hp.
  destruct c; simpl; [| |done];
    by rewrite chan_send_blocked by apply (wf_chan _ Hwf).
Qed.

(** C3, as the code has it. The request made by [Create] holds, for every
    timeout, a channel that did not exist before, with no buffer and no
    content; and in every reachable state a resolver standing at its send
    cannot complete the send on its own, it has to meet a receiver. *)
Theorem Create_reply_channel (acts : list action) (evs : list event)
    (s : State) :
  run acts init = Some (evs, s) →
  (∀ a tmo p h',
     Create a tmo (heap s) = Some (p, h') →
     ∃ r, reqs h' !! p = Some r ∧ timeout r = tmo ∧
          chans (heap s) !! reply_ch r = None ∧
          chans h' !! reply_ch r =
            Some {| chan_cap := 0; chan_buf := [] |}) ∧
  (∀ t c req v,
     procs s !! t = Some {| p_call := c; p_pc := AtSend req v |} →
     step (ARun t) s = None).
Proof.
  intros Hr. pose proof (run_wf _ _ _ Hr) as Hwf. split.
  - intros a tmo p h' Hc. unfold Create in Hc.
    destruct (mgrs (heap s) !! a) as [m|]; [|done]. simplify_eq/=.
    eexists. rewrite lookup_insert_eq. split_and!; try done; simpl.
    + apply fresh_lookup_None.
    + by rewrite lookup_insert_eq.
  - intros t c req v Hp. by eapply send_blocked.
Qed.

(** X20. When the [select] of [AwaitReply] takes the
    timeout or the cancellation case, the call deregisters its identifier
    and returns the timeout or cancellation outcome whatever the table and
    the channel hold: the other goroutines, the requests and the channels
    are untouched, and the heap is unchanged when the entry was already
    gone. *)
Theorem abandon_unconditional (s : State) (t : nat) (p : loc) (r : Request)
    (m : RequestManager) :
  procs s !! t = Some {| p_call := CAwaitReply p; p_pc := AtEntry |} →
  reqs (heap s) !! p = Some r →
  mgrs (heap s) !! manager r = Some m →
  ∀ act res,
    (act = ATimer t ∧
     res = RReply (Some empty_EncodedPayload)
             (NewTimeoutErr (Some (Errorf "timed out")))) ∨
    (∃ e, act = ACtxDone t e ∧
          res = RReply None (TranslateContextError (Some e))) →
    ∃ ev s',
      step act s = Some (ev, s') ∧
      procs s' =
        <[t := {| p_call := CAwaitReply p; p_pc := Returned res |}]>
          (procs s) ∧
      mgrs (heap s') =
        <[manager r := deregister (identifier r) m]> (mgrs (heap s)) ∧
      reqs (heap s') = reqs (heap s) ∧
      chans (heap s') = chans (heap s) ∧
      (IsPending (identifier r) m = false → heap s' = heap s).
Proof.
  intros Hp Hr Hm act res Hact.
  assert (Hsame : IsPending (identifier r) m = false →
                  {| mgrs := <[manager r := deregister (identifier r) m]>
                               (mgrs (heap s));
                     reqs := reqs (heap s); chans := chans (heap s) |}
                  = heap s).
  { intros Hpend%IsPending_false.
    rewrite deregister_absent by done. rewrite insert_id by done.
    by destruct (heap s). }
  destruct Hact as [[-> ->]|(e & -> & ->)].
  - unfold step, abandon. rewrite Hp, Hr. simpl.
    unfold deregister_at. rewrite Hm. simpl.
    eexists _, _. split; [done|]. simpl. split_and!; done.
  - unfold step, abandon. rewrite Hp, Hr. simpl.
    unfold deregister_at. rewrite Hm. simpl.
    eexists _, _. split; [done|]. simpl. split_and!; done.
Qed.

Lemma is_pending_at_deregister a ident h h' :
  deregister_at a ident h = Some h' → is_pending_at a ident h' = false.
Proof.
  unfold deregister_at, is_pending_at.
  destruct (mgrs h !! a) as [m|]; [|done]. intros [= <-]. simpl.
  rewrite lookup_insert_eq. apply IsPending_deregister.
Qed.

Lemma deregister_step s ts cs a ident m :
  procs s !! ts = Some {| p_call := cs; p_pc := AtDeregister |} →
  call_target cs = Some (a, ident) →
  mgrs (heap s) !! a = Some m →
  ∃ s'',
    step (ARun ts) s =
      Some (EDeregister ts a ident (pending m !! ident), s'') ∧
    procs s'' !! ts =
      Some {| p_call := cs; p_pc := Returned (RBool true) |} ∧
    is_pending_at a ident (heap s'') = false.
Proof.
  intros Hp Hc Hm. unfold step. rewrite Hp.
  destruct cs; simplify_eq/=; unfold deregister_at, entry_at; rewrite Hm.
  all: eexists; split; [done|].
  all: simpl; rewrite lookup_insert_eq; split; [done|].
  all: unfold is_pending_at; simpl; rewrite lookup_insert_eq.
  all: apply IsPending_deregister.
Qed.

(** How an [AwaitReply] can get from its [select] to its return. *)
Lemma await_return_inv s act ev s' t p res :
  wf s → step act s = Some (ev, s') →
  procs s !! t = Some {| p_call := CAwaitReply p; p_pc := AtEntry |} →
  procs s' !! t = Some {| p_call := CAwaitReply p; p_pc := Returned res |} →
  (∃ r c b,
     reqs (heap s) !! p = Some r ∧
     ((c = TimerFired ∧ act = ATimer t) ∨
      (∃ e, c = CtxDone e ∧ act = ACtxDone t e)) ∧
     ev = EAbandon t (manager r) (identifier r) b
            (entry_at (manager r) (identifier r) (heap s)) ∧
     deregister_at (manager r) (identifier r) (heap s) = Some (heap s') ∧
     res = RReply (AwaitReply_result c).1 (AwaitReply_result c).2) ∨
  (∃ ts cs v r,
     ev = EHandoff ts t v ∧ act = AHandoff ts t ∧ ts ≠ t ∧
     procs s !! ts = Some {| p_call := cs; p_pc := AtSend p v |} ∧
     reqs (heap s) !! p = Some r ∧
     call_target cs = Some (manager r, identifier r) ∧
     call_reply cs = Some v ∧
     res = RReply (AwaitReply_result (ReplyReceived v)).1
             (AwaitReply_result (ReplyReceived v)).2 ∧
     s' = set_proc t (CAwaitReply p) (Returned res)
            (set_proc ts cs AtDeregister s)).
Proof.
  intros Hwf Hst Hp Hp'.
  pose proof (wf_send _ Hwf) as Hsd.
  pose proof (wf_chan_inj _ Hwf) as Hinj.
  step_wf Hwf Hst; simpl in *; map_cases.
  - right. assert (req = p) as -> by eauto.
    destruct (Hsd _ _ _ _ H) as (a1 & i1 & q1 & ? & ? & ? & ? & ?).
    simplify_eq. eexists ts, p_call0, v, _.
    split_and!; try done.
    intros ->. rewrite H in H0. discriminate.
  - left. eexists _, (CtxDone e), false. split_and!; eauto.
    unfold deregister_at.
    match goal with E : mgrs _ !! _ = Some _ |- _ => by rewrite E end.
  - left. eexists _, TimerFired, true. split_and!; eauto.
    unfold deregister_at.
    match goal with E : mgrs _ !! _ = Some _ |- _ => by rewrite E end.
Qed.

(** C7, as the code has it. The step by which [AwaitReply] returns is either
    the timeout or cancellation case, and then the identifier is not pending
    right after it; or it is the receipt of a resolver's reply, and then the
    entry is deleted by that resolver's next step, the [deregister] that
    precedes its [return true]. *)
Theorem await_return_removal (acts : list action) (evs : list event)
    (s s' : State) (act : action) (ev : event) (t : nat) (p : loc)
    (r : Request) (res : result) :
  run acts init = Some (evs, s) →
  step act s = Some (ev, s') →
  procs s !! t = Some {| p_call := CAwaitReply p; p_pc := AtEntry |} →
  procs s' !! t = Some {| p_call := CAwaitReply p; p_pc := Returned res |} →
  reqs (heap s') !! p = Some r →
  (∃ b rm,
     ev = EAbandon t (manager r) (identifier r) b rm ∧
     is_pending_at (manager r) (identifier r) (heap s') = false) ∨
  (∃ ts cs v rm s'',
     ev = EHandoff ts t v ∧
     procs s' !! ts = Some {| p_call := cs; p_pc := AtDeregister |} ∧
     call_target cs = Some (manager r, identifier r) ∧
     step (ARun ts) s' =
       Some (EDeregister ts (manager r) (identifier r) rm, s'') ∧
     procs s'' !! ts =
       Some {| p_call := cs; p_pc := Returned (RBool true) |} ∧
     is_pending_at (manager r) (identifier r) (heap s'') = false).
Proof.
  intros Hrun Hst Hp Hp' Hr. pose proof (run_wf _ _ _ Hrun) as Hwf.
  pose proof (reqs_mono_step _ _ _ _ Hst) as Hmono.
  destruct (await_return_inv _ _ _ _ _ _ _ Hwf Hst Hp Hp')
    as [(r0 & c & b & Hr0 & _ & -> & Hd & _)
       |(ts & cs & v & r0 & -> & _ & Hne & Hts & Hr0 & Hc & _ & _ & ->)].
  - left. apply Hmono in Hr0. simplify_eq. eexists _, _. split; [done|].
    by eapply is_pending_at_deregister.
  - right. simpl in Hr. simplify_eq.
    destruct (wf_target _ Hwf _ _ _ _ _ Hts Hc) as [m Hm].
    edestruct (deregister_step
                 (set_proc t (CAwaitReply p) (Returned res)
                    (set_proc ts cs AtDeregister s)) ts cs)
      as (s'' & Hst' & Hp'' & Hpend); [|exact Hc|exact Hm|].
    { simpl. rewrite lookup_insert_ne by done. by rewrite lookup_insert_eq. }
    exists ts, cs, v, (pending m !! identifier r), s''.
    split_and!; try done.
    simpl. rewrite lookup_insert_ne by done. by rewrite lookup_insert_eq.
Qed.

(** The only step that takes a resolver past its send is the handoff to an
    [AwaitReply] on the handle of the request it has looked up. *)
Lemma send_leave_inv s act ev s' t c p v :
  wf s → step act s = Some (ev, s') →
  procs s !! t = Some {| p_call := c; p_pc := AtSend p v |} →
  procs s' !! t ≠ Some {| p_call := c; p_pc := AtSend p v |} →
  ∃ tr,
    act = AHandoff t tr ∧ ev = EHandoff t tr v ∧
    procs s !! tr = Some {| p_call := CAwaitReply p; p_pc := AtEntry |} ∧
    procs s' !! tr =
      Some {| p_call := CAwaitReply p;
              p_pc := await_returned (ReplyReceived v) |} ∧
    procs s' !! t = Some {| p_call := c; p_pc := AtDeregister |} ∧
    heap s' = heap s.
Proof.
  intros Hwf Hst Hp Hp'.
  pose proof (wf_chan_inj _ Hwf) as Hinj.
  step_wf Hwf Hst; simpl in *.
  all: repeat match goal with
       | H : <[?i:=_]> _ !! ?j ≠ _ |- _ =>
           rewrite lookup_insert in H; destruct (decide (i = j));
             simplify_eq/=
       end; try done.
  assert (req = req0) as -> by eauto.
  exists tr. split_and!; try done.
  - by rewrite lookup_insert_eq.
  - rewrite lookup_insert_ne by done. by rewrite lookup_insert_eq.
Qed.

(** C4, as the code has it. [Fulfill] on a pending identifier finds the
    entry and moves to its send, leaving the table as it is; at the send it
    cannot go on by itself, and the one step that takes it further hands the
    reply to an [AwaitReply] on the handle, which returns the payload with a
    nil error; the next step deregisters the identifier and returns [true];
    and whenever the call has returned [true], an [AwaitReply] on the handle
    of that identifier has returned the payload with a nil error. *)
Theorem Fulfill_delivers (acts : list action) (evs : list event) (s : State)
    (t : nat) (a : loc) (ident : RequestIdentifier) (P : pld_Payload) :
  run acts init = Some (evs, s) →
  (procs s !! t = Some {| p_call := CFulfill a ident P; p_pc := AtEntry |} →
   is_pending_at a ident (heap s) = true →
   ∃ p, entry_at a ident (heap s) = Some p ∧
        step (ARun t) s =
          Some (ELookup t (Some p),
                set_proc t (CFulfill a ident P) (AtSend p (fulfill_reply P))
                  s)) ∧
  (∀ p v,
     procs s !! t =
       Some {| p_call := CFulfill a ident P; p_pc := AtSend p v |} →
     v = fulfill_reply P ∧
     step (ARun t) s = None ∧
     ∀ act ev s',
       step act s = Some (ev, s') →
       procs s' !! t ≠
         Some {| p_call := CFulfill a ident P; p_pc := AtSend p v |} →
       ∃ tr,
         act = AHandoff t tr ∧
         procs s !! tr =
           Some {| p_call := CAwaitReply p; p_pc := AtEntry |} ∧
         procs s' !! tr =
           Some {| p_call := CAwaitReply p;
                   p_pc := Returned (RReply (Some {| Payload := P |}) None) |} ∧
         procs s' !! t =
           Some {| p_call := CFulfill a ident P; p_pc := AtDeregister |} ∧
         heap s' = heap s) ∧
  (procs s !! t =
     Some {| p_call := CFulfill a ident P; p_pc := AtDeregister |} →
   ∃ rm s',
     step (ARun t) s = Some (EDeregister t a ident rm, s') ∧
     procs s' !! t =
       Some {| p_call := CFulfill a ident P; p_pc := Returned (RBool true) |} ∧
     is_pending_at a ident (heap s') = false) ∧
  (procs s !! t =
     Some {| p_call := CFulfill a ident P; p_pc := AtDeregister |} ∨
   procs s !! t =
     Some {| p_call := CFulfill a ident P; p_pc := Returned (RBool true) |} →
   ∃ tA p r,
     procs s !! tA =
       Some {| p_call := CAwaitReply p;
               p_pc := Returned (RReply (Some {| Payload := P |}) None) |} ∧
     reqs (heap s) !! p = Some r ∧ identifier r = ident ∧ manager r = a).
Proof.
  intros Hrun. pose proof (run_wf _ _ _ Hrun) as Hwf. split_and!.
  - intros Hp Hpend. unfold is_pending_at, IsPending in Hpend.
    unfold entry_at, step. rewrite Hp. simpl. unfold lookup_pending.
    destruct (mgrs (heap s) !! a) as [m|]; [|done].
    destruct (pending m !! ident) as [p|]; [|done]. by exists p.
  - intros p v Hp.
    destruct (wf_send _ Hwf _ _ _ _ Hp) as (a1 & i1 & r & ? & ? & _).
    simplify_eq/=. split_and!; [done|..].
    + by eapply send_blocked.
    + intros act ev s' Hst Hp'.
      destruct (send_leave_inv _ _ _ _ _ _ _ _ Hwf Hst Hp Hp')
        as (tr & -> & _ & ? & ? & ? & ?).
      by exists tr.
  - intros Hp.
    destruct (wf_target _ Hwf _ _ _ a ident Hp eq_refl) as [m Hm].
    destruct (deregister_step _ _ _ _ _ _ Hp eq_refl Hm) as (s' & ? & ? & ?).
    by exists (pending m !! ident), s'.
  - intros Hp.
    assert (delivered s (CFulfill a ident P)) as Hd.
    { destruct Hp as [Hp|Hp]; [by eapply wf_dereg|by eapply wf_true]. }
    destruct Hd as (a1 & i1 & v & tA & p & r & ? & ? & ? & ? & ? & ?).
    simplify_eq/=. by exists tA, p, r.
Qed.

(** ** Properties of whole runs *)

Lemma created_app a evs1 evs2 :
  created a (evs1 ++ evs2) = created a evs1 ++ created a evs2.
Proof.
  induction evs1 as [|ev evs1 IH]; [done|].
  destruct ev; simpl; try done. case_bool_decide; simpl; by rewrite IH.
Qed.

Lemma claims_app a ident evs1 evs2 :
  claims a ident (evs1 ++ evs2) = claims a ident evs1 ++ claims a ident evs2.
Proof. apply filter_app. Qed.

Lemma occurrences_app ident l1 l2 :
  occurrences ident (l1 ++ l2)
  = (occurrences ident l1 + occurrences ident l2)%nat.
Proof. unfold occurrences. by rewrite filter_app, length_app. Qed.

Lemma occurrences_pos ident l :
  (0 < occurrences ident l)%nat → ident ∈ l.
Proof.
  unfold occurrences. induction l as [|x l IH]; simpl; [lia|].
  rewrite filter_cons. case_decide; simplify_eq/=.
  - intros _. by left.
  - intros H0. right. by apply IH.
Qed.

Lemma occurrences_NoDup ident l : NoDup l → (occurrences ident l ≤ 1)%nat.
Proof.
  unfold occurrences. induction 1 as [|x l Hx Hnd IH]; simpl; [lia|].
  rewrite filter_cons. case_decide; simplify_eq/=; [|done].
  assert (occurrences ident l = 0%nat) as Hz; [|unfold occurrences in Hz; lia].
  destruct (occurrences ident l) eqn:Ho; [done|].
  exfalso. apply Hx, occurrences_pos. lia.
Qed.

Lemma tinv_init : tinv [] init.
Proof.
  split; simpl; intros; done.
Qed.

Lemma incr_of_length (n : nat) :
  uint64_incr (Z.of_nat n mod uint64_modulus)
  = Z.of_nat (n + 1) mod uint64_modulus.
Proof.
  unfold uint64_incr. rewrite Zplus_mod_idemp_l. f_equal. lia.
Qed.

Ltac created_simpl :=
  rewrite ?created_app; simpl;
  repeat case_bool_decide; simplify_eq/=; rewrite ?app_nil_r.

Lemma ti_fresh_step evs s act ev s' :
  tinv evs s → step act s = Some (ev, s') →
  ∀ a, mgrs (heap s') !! a = None → created a (evs ++ [ev]) = [].
Proof.
  intros Hti Hst. pose proof (ti_fresh _ _ Hti) as Hf.
  step_inv Hst; intros a0 Hm; simpl in *; created_simpl; eauto.
  all: repeat match goal with
       | H : <[_:=_]> _ !! _ = None |- _ =>
           apply lookup_insert_None in H; destruct H
       end; eauto; try done.
Qed.

Lemma ti_alloc_step evs s act ev s' :
  tinv evs s → step act s = Some (ev, s') →
  ∀ a m,
    mgrs (heap s') !! a = Some m →
    lastID m = Z.of_nat (length (created a (evs ++ [ev]))) mod uint64_modulus.
Proof.
  intros Hti Hst. pose proof (ti_alloc _ _ Hti) as Ha.
  pose proof (ti_fresh _ _ Hti) as Hf.
  step_inv Hst; intros a0 m0 Hm; simpl in *; map_cases; created_simpl;
    eauto.
  - rewrite Hf; [done|]. apply fresh_lookup_None.
  - rewrite length_app. simpl. erewrite Ha by done. apply incr_of_length.
Qed.

Lemma ti_ids_step evs s act ev s' :
  tinv evs s → step act s = Some (ev, s') →
  ∀ a k ident,
    created a (evs ++ [ev]) !! k = Some ident →
    ident = PutUint64 ((Z.of_nat k + 1) mod uint64_modulus).
Proof.
  intros Hti Hst. pose proof (ti_alloc _ _ Hti) as Ha.
  pose proof (ti_ids _ _ Hti) as Hi.
  step_inv Hst; intros a0 k i0; simpl in *; created_simpl; eauto.
  intros [Hk|[Hk Hl]]%lookup_app_Some; [eauto|].
  destruct (k - length (created a0 evs))%nat as [|n] eqn:Hkn; [|done].
  simpl in Hl. simplify_eq. erewrite Ha by done.
  rewrite incr_of_length. do 2 f_equal. lia.
Qed.

Lemma pend_insert a ident h a' m' rq ch :
  pend a ident {| mgrs := <[a' := m']> (mgrs h); reqs := rq; chans := ch |}
  = if decide (a' = a)
    then (if IsPending ident m' then 1 else 0)%nat
    else pend a ident h.
Proof.
  unfold pend, is_pending_at. simpl. rewrite lookup_insert.
  by destruct (decide (a' = a)).
Qed.

Lemma pend_same_mgrs a ident h rq ch :
  pend a ident {| mgrs := mgrs h; reqs := rq; chans := ch |} = pend a ident h.
Proof. done. Qed.

Lemma pend_lookup a ident h m :
  mgrs h !! a = Some m →
  pend a ident h = (if IsPending ident m then 1 else 0)%nat.
Proof. intros Hm. unfold pend, is_pending_at. by rewrite Hm. Qed.

(** A [deregister] turns a pending entry into a claim and nothing else. *)
Lemma claim_deregister a0 i0 h a ident m ev :
  mgrs h !! a = Some m →
  is_claim a0 i0 ev =
    match entry_at a ident h with
    | Some _ => bool_decide (a = a0 ∧ ident = i0)
    | None => false
    end →
  (length (claims a0 i0 [ev])
   + pend a0 i0 {| mgrs := <[a := deregister ident m]> (mgrs h);
                   reqs := reqs h; chans := chans h |}
   = pend a0 i0 h)%nat.
Proof.
  intros Hm Hev. unfold claims. rewrite filter_cons, filter_nil.
  rewrite pend_insert. unfold entry_at in Hev. rewrite Hm in Hev.
  destruct (decide (a = a0)) as [->|Hne].
  - rewrite (pend_lookup _ _ _ _ Hm). unfold IsPending. simpl.
    destruct (decide (ident = i0)) as [->|Hni].
    + rewrite lookup_delete_eq.
      destruct (pending m !! i0); rewrite Hev.
      * rewrite bool_decide_eq_true_2 by done. rewrite decide_True; done.
      * rewrite decide_False; done.
    + rewrite lookup_delete_ne by done.
      assert (is_claim a0 i0 ev = false) as ->.
      { rewrite Hev. destruct (pending m !! ident); [|done].
        apply bool_decide_eq_false_2. by intros [_ ?]. }
      by rewrite decide_False.
  - assert (is_claim a0 i0 ev = false) as ->.
    { rewrite Hev. destruct (pending m !! ident); [|done].
      apply bool_decide_eq_false_2. by intros [? _]. }
    by rewrite decide_False.
Qed.

Lemma occurrences_nil ident : occurrences ident [] = 0%nat.
Proof. done. Qed.

Lemma occurrences_singleton ident x :
  occurrences ident [x] = (if decide (x = ident) then 1 else 0)%nat.
Proof.
  unfold occurrences. rewrite filter_cons, filter_nil. by case_decide.
Qed.

Lemma ti_claims_step evs s act ev s' :
  tinv evs s → step act s = Some (ev, s') →
  ∀ a ident,
    (length (claims a ident (evs ++ [ev])) + pend a ident (heap s')
     ≤ occurrences ident (created a (evs ++ [ev])))%nat.
Proof.
  intros Hti Hst a0 i0. pose proof (ti_claims _ _ Hti a0 i0) as Hc.
  rewrite claims_app, created_app, length_app, occurrences_app.
  step_inv Hst; bool_facts; simpl in *.
  all: rewrite ?occurrences_nil, ?pend_same_mgrs; try lia.
  all: try (match goal with
            | Hm : mgrs _ !! ?a = Some ?m
              |- context [length (claims ?a0 ?i0 [?ev])] =>
                pose proof (claim_deregister a0 i0 _ _ _ _ ev Hm eq_refl)
            end; lia).
  - rewrite pend_insert. case_decide; [|lia].
    change (IsPending i0 NewRequestManager) with false. simpl. lia.
  - rewrite pend_insert. rewrite decide_True by done.
    rewrite occurrences_singleton. unfold IsPending. simpl.
    rewrite lookup_insert. case_decide; [lia|].
    subst a0. rewrite (pend_lookup _ _ _ _ H1) in Hc.
    unfold IsPending in Hc. lia.
  - rewrite pend_insert. rewrite decide_False by done. lia.
Qed.

Lemma pend_pending a ident h m p :
  mgrs h !! a = Some m → pending m !! ident = Some p → pend a ident h = 1%nat.
Proof.
  intros Hm Hp. rewrite (pend_lookup _ _ _ _ Hm). unfold IsPending.
  by rewrite Hp.
Qed.

Lemma pend_zero a ident h : pend a ident h = 0%nat ↔ is_pending_at a ident h = false.
Proof. unfold pend. destruct (is_pending_at a ident h); naive_solver. Qed.

Lemma ti_found_step evs s act ev s' :
  tinv evs s → step act s = Some (ev, s') →
  ∀ t c pc a ident,
    procs s' !! t = Some {| p_call := c; p_pc := pc |} →
    call_target c = Some (a, ident) →
    pc ≠ AtEntry → pc ≠ Returned (RBool false) →
    ident ∈ created a (evs ++ [ev]).
Proof.
  intros Hti Hst t0 c0 pc0 a0 i0 Hp Hc Hpc1 Hpc2.
  rewrite created_app. apply elem_of_app. left.
  pose proof (ti_found _ _ Hti) as Hf.
  pose proof (ti_claims _ _ Hti a0 i0) as Hcl.
  step_inv Hst; simpl in *; map_cases; eauto.
  all: apply occurrences_pos; erewrite pend_pending in Hcl by done; lia.
Qed.

Lemma created_lookup_small evs s a k ident :
  tinv evs s → created a evs !! k = Some ident →
  Z.of_nat (length (created a evs)) < uint64_modulus →
  ident = PutUint64 (Z.of_nat k + 1) ∧
  0 ≤ Z.of_nat k + 1 < uint64_modulus.
Proof.
  intros Hti Hk Hlen. apply lookup_lt_Some in Hk as Hlt.
  rewrite (ti_ids _ _ Hti _ _ _ Hk).
  rewrite Z.mod_small by lia. split; [done|lia].
Qed.

(** Short of a wrap-around of the counter, the identifier that the next
    [Create] makes has not been made before. *)
Lemma next_id_new evs s a m :
  tinv evs s → mgrs (heap s) !! a = Some m →
  Z.of_nat (length (created a evs)) + 1 < uint64_modulus →
  PutUint64 (uint64_incr (lastID m)) ∉ created a evs.
Proof.
  intros Hti Hm Hlen [k Hk]%list_elem_of_lookup.
  destruct (created_lookup_small _ _ _ _ _ Hti Hk) as [Heq Hr]; [lia|].
  apply lookup_lt_Some in Hk as Hlt.
  rewrite (ti_alloc _ _ Hti _ _ Hm), incr_of_length in Heq.
  rewrite Z.mod_small in Heq by lia.
  apply PutUint64_inj in Heq; unfold uint64_modulus in *; lia.
Qed.

Lemma pend_deregister_le a0 i0 h a ident m :
  mgrs h !! a = Some m →
  (pend a0 i0 {| mgrs := <[a := deregister ident m]> (mgrs h);
                 reqs := reqs h; chans := chans h |}
   ≤ pend a0 i0 h)%nat.
Proof.
  intros Hm. rewrite pend_insert. case_decide; [|done]. subst a0.
  rewrite (pend_lookup _ _ _ _ Hm). unfold IsPending. simpl.
  destruct (decide (ident = i0)) as [->|Hne].
  - rewrite lookup_delete_eq. lia.
  - by rewrite lookup_delete_ne.
Qed.

Lemma ti_gone_step evs s act ev s' :
  tinv evs s → step act s = Some (ev, s') →
  ∀ t c a ident,
    procs s' !! t = Some {| p_call := c; p_pc := Returned (RBool true) |} →
    call_target c = Some (a, ident) →
    Z.of_nat (length (created a (evs ++ [ev]))) < uint64_modulus →
    is_pending_at a ident (heap s') = false.
Proof.
  intros Hti Hst t0 c0 a0 i0 Hp Hc Hlen.
  rewrite created_app, length_app in Hlen.
  apply pend_zero.
  assert (Hgone : ∀ t c,
    procs s !! t = Some {| p_call := c; p_pc := Returned (RBool true) |} →
    call_target c = Some (a0, i0) →
    pend a0 i0 (heap s) = 0%nat ∧ i0 ∈ created a0 evs).
  { intros t c Hp0 Hc0. split.
    - apply pend_zero. eapply (ti_gone _ _ Hti); [done..|lia].
    - by eapply (ti_found _ _ Hti). }
  step_inv Hst; bool_facts; simpl in *; map_cases.
  all: try (edestruct Hgone as [Hz Hin]; [eassumption..|]).
  all: rewrite ?pend_same_mgrs; try done.
  1: { rewrite pend_insert. by case_decide. }
  1: { rewrite pend_insert. case_decide; [|done]. subst a1.
    unfold IsPending. simpl. rewrite lookup_insert. case_decide.
    + exfalso. subst i0. eapply next_id_new; [done..| |exact Hin].
      simpl in Hlen. lia.
    + match goal with
      | Hm : mgrs _ !! _ = Some _ |- _ =>
          rewrite (pend_lookup _ _ _ _ Hm) in Hz
      end.
      by unfold IsPending in Hz. }
  1: { rewrite pend_insert. case_decide; [|done]. subst a1.
    unfold IsPending. simpl. rewrite lookup_insert. case_decide.
    + exfalso. subst i0.
      match goal with
      | E : created a0 _ !! _ = _ |- _ => clear E
      | _ => idtac
      end.
      eapply next_id_new; [done..| |exact Hin].
      simpl in Hlen. lia.
    + match goal with
      | Hm : mgrs _ !! _ = Some _ |- _ =>
          rewrite (pend_lookup _ _ _ _ Hm) in Hz
      end.
      by unfold IsPending in Hz. }
  all: first
    [ by (rewrite pend_insert, decide_True by done;
          rewrite IsPending_deregister)
    | by (eapply Nat.le_0_r; rewrite <- Hz; apply pend_deregister_le) ].
Qed.

Lemma tinv_step evs s act ev s' :
  tinv evs s → step act s = Some (ev, s') → tinv (evs ++ [ev]) s'.
Proof.
  intros Hti Hst. split.
  - by eapply ti_fresh_step.
  - by eapply ti_alloc_step.
  - by eapply ti_ids_step.
  - by eapply ti_claims_step.
  - by eapply ti_found_step.
  - by eapply ti_gone_step.
Qed.

Lemma exec_tinv evs s : exec init evs s → tinv evs s.
Proof.
  induction 1 as [|evs s act ev s' _ IH Hst]; [apply tinv_init|].
  by eapply tinv_step.
Qed.

Lemma run_tinv acts evs s : run acts init = Some (evs, s) → tinv evs s.
Proof. intros Hr. apply exec_tinv. by eapply run_exec. Qed.

Lemma created_NoDup evs s a :
  tinv evs s → Z.of_nat (length (created a evs)) < uint64_modulus →
  NoDup (created a evs).
Proof.
  intros Hti Hlen. apply NoDup_alt. intros i j x Hi Hj.
  destruct (created_lookup_small _ _ _ _ _ Hti Hi Hlen) as [-> ?].
  destruct (created_lookup_small _ _ _ _ _ Hti Hj Hlen) as [Heq ?].
  apply PutUint64_inj in Heq; [lia|done..].
Qed.

(** C6. On a manager made by [NewRequestManager], the call of [Create]
    number [k + 1] returns the eight little-endian bytes of [k + 1], as
    long as that number fits sixty-four bits; and when fewer than [2 ^ 64]
    calls were made, the identifiers returned are pairwise different and,
    read as little-endian numbers, strictly increasing. *)
Theorem Create_identifiers (acts : list action) (evs : list event)
    (s : State) (a : loc) :
  run acts init = Some (evs, s) →
  (∀ k ident,
     created a evs !! k = Some ident →
     Z.of_nat k + 1 < uint64_modulus →
     ident = PutUint64 (Z.of_nat k + 1) ∧
     length ident = 8%nat ∧ Uint64 ident = Z.of_nat k + 1) ∧
  (Z.of_nat (length (created a evs)) < uint64_modulus →
   NoDup (created a evs) ∧
   ∀ i j x y,
     (i < j)%nat →
     created a evs !! i = Some x → created a evs !! j = Some y →
     Uint64 x < Uint64 y).
Proof.
  intros Hrun. pose proof (run_tinv _ _ _ Hrun) as Hti. split.
  - intros k ident Hk Hlt. rewrite (ti_ids _ _ Hti _ _ _ Hk).
    rewrite Z.mod_small by lia. split_and!; [done..|].
    apply Uint64_PutUint64. lia.
  - intros Hlen. split; [by eapply created_NoDup|].
    intros i j x y Hij Hi Hj.
    destruct (created_lookup_small _ _ _ _ _ Hti Hi Hlen) as [-> ?].
    destruct (created_lookup_small _ _ _ _ _ Hti Hj Hlen) as [-> ?].
    rewrite !Uint64_PutUint64 by done. lia.
Qed.

Lemma exec_suffix_inv evs1 s1 evs2 s2 :
  wf s1 → tinv evs1 s1 → exec s1 evs2 s2 →
  wf s2 ∧ tinv (evs1 ++ evs2) s2.
Proof.
  intros Hwf Hti. induction 1 as [|evs s act ev s' _ [IHw IHt] Hst].
  - by rewrite app_nil_r.
  - split; [by eapply wf_step|].
    rewrite app_assoc. by eapply tinv_step.
Qed.

Lemma exec_returned_mono s1 evs2 s2 t c res :
  exec s1 evs2 s2 →
  procs s1 !! t = Some {| p_call := c; p_pc := Returned res |} →
  procs s2 !! t = Some {| p_call := c; p_pc := Returned res |}.
Proof.
  induction 1 as [|evs s act ev s' _ IH Hst]; [done|].
  intros Hp. eapply returned_mono_step; eauto.
Qed.

(** A resolver call that starts after a call for the same identifier has
    returned [true] stands before its lookup or has returned [false]. *)
Lemma late_call_inv evs1 s1 evs2 s2 t c t' a ident :
  wf s1 → tinv evs1 s1 →
  procs s1 !! t = Some {| p_call := c; p_pc := Returned (RBool true) |} →
  call_target c = Some (a, ident) →
  procs s1 !! t' = None →
  exec s1 evs2 s2 →
  Z.of_nat (length (created a (evs1 ++ evs2))) < uint64_modulus →
  ∀ c' pc',
    procs s2 !! t' = Some {| p_call := c'; p_pc := pc' |} →
    call_target c' = Some (a, ident) →
    pc' = AtEntry ∨ pc' = Returned (RBool false).
Proof.
  intros Hwf Hti Ht Hc Ht' Hex.
  induction Hex as [|evs s act ev s' Hex IH Hst]; intros Hlen c' pc' Hp Hc'.
  { by rewrite Ht' in Hp. }
  assert (Hlen' : Z.of_nat (length (created a (evs1 ++ evs)))
                  < uint64_modulus).
  { rewrite app_assoc, created_app, length_app in Hlen. lia. }
  specialize (IH Hlen').
  destruct (exec_suffix_inv _ _ _ _ Hwf Hti Hex) as [Hwfs Htis].
  pose proof (exec_returned_mono _ _ _ _ _ _ Hex Ht) as Hts.
  pose proof (ti_gone _ _ Htis _ _ _ _ Hts Hc Hlen') as Hgone.
  unfold is_pending_at, IsPending in Hgone.
  step_inv Hst; simpl in *; map_cases; eauto.
  all: try (edestruct IH as [?|?]; [eassumption..| |]; by simplify_eq).
  all: edestruct IH as [?|?]; [eassumption|done| |]; by simplify_eq.
Qed.

(** C1. As long as the counter of manager [a] has not wrapped around: at
    most one step of a run claims the entry of an identifier, that is,
    deletes it from the table where it was pending, be it the [deregister]
    of [Fulfill], of [Fail], of a timeout or of a cancellation; and once a
    call of [Fulfill] or [Fail] for the identifier has returned [true], a
    call of [Fulfill] or [Fail] for it that starts later either has returned
    [false] or is about to: its only step is the lookup that misses and
    returns [false]. *)
Theorem exactly_once_resolution (acts1 acts2 : list action)
    (evs1 evs2 : list event) (s1 s2 : State) (a : loc)
    (ident : RequestIdentifier) :
  run acts1 init = Some (evs1, s1) →
  run acts2 s1 = Some (evs2, s2) →
  Z.of_nat (length (created a (evs1 ++ evs2))) < uint64_modulus →
  (length (claims a ident (evs1 ++ evs2)) ≤ 1)%nat ∧
  ∀ t c t' c' pc',
    procs s1 !! t = Some {| p_call := c; p_pc := Returned (RBool true) |} →
    call_target c = Some (a, ident) →
    procs s1 !! t' = None →
    procs s2 !! t' = Some {| p_call := c'; p_pc := pc' |} →
    call_target c' = Some (a, ident) →
    pc' = Returned (RBool false) ∨
    (pc' = AtEntry ∧
     step (ARun t') s2
     = Some (ELookup t' None, set_proc t' c' (Returned (RBool false)) s2)).
Proof.
  intros Hr1 Hr2 Hlen.
  pose proof (run_app _ _ _ _ _ _ _ Hr1 Hr2) as Hr.
  pose proof (run_tinv _ _ _ Hr) as Hti.
  pose proof (run_wf _ _ _ Hr) as Hwf.
  split.
  - pose proof (ti_claims _ _ Hti a ident) as Hc.
    pose proof (occurrences_NoDup ident _ (created_NoDup _ _ a Hti Hlen)).
    lia.
  - intros t c t' c' pc' Ht Hc Ht' Hp' Hc'.
    pose proof (run_exec _ _ _ _ Hr2) as Hex.
    destruct (late_call_inv _ _ _ _ _ _ _ _ _
                (run_wf _ _ _ Hr1) (run_tinv _ _ _ Hr1) Ht Hc Ht' Hex Hlen
                _ _ Hp' Hc') as [->| ->]; [right|by left].
    split; [done|].
    pose proof (exec_returned_mono _ _ _ _ _ _ Hex Ht) as Hts.
    pose proof (ti_gone _ _ Hti _ _ _ _ Hts Hc Hlen) as Hgone.
    destruct (wf_target _ Hwf _ _ _ _ _ Hp' Hc') as [m Hm].
    unfold is_pending_at in Hgone. rewrite Hm in Hgone.
    apply IsPending_false in Hgone.
    by eapply lookup_miss_step.
Qed.

(** ** Further properties of the manager's methods *)

Lemma byte_at_mod v i :
  0 ≤ i < 8 → byte_at (v mod uint64_modulus) i = byte_at v i.
Proof.
  intros Hi. unfold byte_at, uint64_modulus.
  apply Z.bits_inj'. intros n Hn.
  rewrite !Z.land_spec, !Z.shiftr_spec by lia.
  destruct (decide (n < 8)) as [Hlt|Hge].
  - rewrite Z.mod_pow2_bits_low by lia. done.
  - change 255 with (Z.ones 8). rewrite Z.ones_spec_high by lia.
    by rewrite !andb_false_r.
Qed.

Lemma Uint64_bytes b0 b1 b2 b3 b4 b5 b6 b7 :
  Forall (λ x, 0 ≤ x < 256) [b0; b1; b2; b3; b4; b5; b6; b7] →
  Uint64 [b0; b1; b2; b3; b4; b5; b6; b7]
  = b0 + 256 * (b1 + 256 * (b2 + 256 * (b3 + 256 * (b4 + 256 *
      (b5 + 256 * (b6 + 256 * b7)))))).
Proof.
  intros Hb. repeat (apply Forall_cons in Hb as [? Hb]).
  cbn [Uint64]. rewrite Z.shiftl_0_l.
  rewrite !lor_shiftl_byte by done. rewrite Z.lor_0_r. lia.
Qed.

(** X1. [PutUint64] yields a well-formed eight-byte array that
    depends on its argument modulo [2 ^ 64] only; decoding undoes encoding on
    sixty-four-bit values, and encoding undoes decoding on every well-formed
    array. *)
Theorem PutUint64_roundtrip :
  (∀ v, is_byte_array8 (PutUint64 v)) ∧
  (∀ v, PutUint64 (v mod uint64_modulus) = PutUint64 v) ∧
  (∀ v, Uint64 (PutUint64 v) = v mod uint64_modulus) ∧
  (∀ b, is_byte_array8 b →
        PutUint64 (Uint64 b) = b ∧ 0 ≤ Uint64 b < uint64_modulus).
Proof.
  split_and!.
  - intros v. split; [done|]. unfold PutUint64.
    repeat (apply Forall_cons; split; [apply byte_at_range; lia|]).
    apply Forall_nil_2.
  - intros v. unfold PutUint64. by rewrite !byte_at_mod by lia.
  - intros v. unfold PutUint64.
    rewrite <- !(byte_at_mod v) by lia.
    apply (Uint64_PutUint64 (v mod uint64_modulus)).
    apply Z.mod_pos_bound. unfold uint64_modulus. lia.
  - intros b [Hlen Hb].
    do 9 (destruct b as [|? b]; try discriminate Hlen). clear Hlen.
    rewrite Uint64_bytes by done.
    repeat (apply Forall_cons in Hb as [? Hb]).
    split.
    + unfold PutUint64. rewrite !byte_at_div by lia. simpl Z.mul.
      change (2 ^ 0) with 1. change (2 ^ 8) with 256.
      change (2 ^ 16) with 65536. change (2 ^ 24) with 16777216.
      change (2 ^ 32) with 4294967296. change (2 ^ 40) with 1099511627776.
      change (2 ^ 48) with 281474976710656.
      change (2 ^ 56) with 72057594037927936.
      repeat f_equal; Z.div_mod_to_equations; lia.
    + unfold uint64_modulus. lia.
Qed.

(** X2. [Create] on an allocated manager never fails.  It returns a pointer
    that was not in use, to a request that carries the receiver, the
    timeout and, as [Identifier], the bytes of the incremented counter.
    Afterwards that identifier is pending and leads to the new request, no
    other identifier has changed, and [PendingRequests] has grown by one,
    unless the identifier was pending already, in which case the old entry
    is replaced and the count stays.  Other managers and the requests made
    before are untouched. *)
Theorem Create_registers (self : loc) (tmo : Z) (h : Heap)
    (m : RequestManager) :
  mgrs h !! self = Some m →
  ∃ p h' m' r,
    Create self tmo h = Some (p, h') ∧
    reqs h !! p = None ∧ reqs h' !! p = Some r ∧
    manager r = self ∧ timeout r = tmo ∧
    Identifier r = PutUint64 (uint64_incr (lastID m)) ∧
    mgrs h' !! self = Some m' ∧
    lastID m' = uint64_incr (lastID m) ∧
    IsPending (Identifier r) m' = true ∧
    lookup_pending (Identifier r) m' = Some p ∧
    (∀ ident, ident ≠ Identifier r →
              lookup_pending ident m' = lookup_pending ident m) ∧
    PendingRequests m' =
      (if IsPending (Identifier r) m then PendingRequests m
       else S (PendingRequests m)) ∧
    (∀ a, a ≠ self → mgrs h' !! a = mgrs h !! a) ∧
    (∀ p' r', reqs h !! p' = Some r' → reqs h' !! p' = Some r').
Proof.
  intros Hm. unfold Create. rewrite Hm. eexists _, _, _, _.
  split; [done|]. simpl. rewrite !lookup_insert_eq.
  split_and!; try done.
  - apply fresh_lookup_None.
  - unfold IsPending. simpl. by rewrite lookup_insert_eq.
  - unfold lookup_pending. simpl. by rewrite lookup_insert_eq.
  - intros ident Hne. unfold lookup_pending. simpl.
    by rewrite lookup_insert_ne.
  - unfold PendingRequests, IsPending, Identifier. simpl.
    rewrite map_size_insert. by destruct (pending m !! _).
  - intros a Hne. by rewrite lookup_insert_ne.
  - intros p' r' Hp'. by apply lookup_insert_fresh.
Qed.

(** X3. After [deregister] the identifier is not pending, every other
    identifier is as before, the counter is unchanged, and
    [PendingRequests] has dropped by one exactly when the identifier was
    pending. *)
Theorem deregister_removes (ident : RequestIdentifier) (m : RequestManager) :
  IsPending ident (deregister ident m) = false ∧
  (∀ ident', ident' ≠ ident →
     lookup_pending ident' (deregister ident m) = lookup_pending ident' m ∧
     IsPending ident' (deregister ident m) = IsPending ident' m) ∧
  lastID (deregister ident m) = lastID m ∧
  PendingRequests (deregister ident m) =
    (if IsPending ident m then pred (PendingRequests m)
     else PendingRequests m) ∧
  (IsPending ident m = true → (0 < PendingRequests m)%nat).
Proof.
  split_and!.
  - apply IsPending_deregister.
  - intros ident' Hne. unfold lookup_pending, IsPending. simpl.
    by rewrite lookup_delete_ne.
  - done.
  - unfold PendingRequests, IsPending. simpl. rewrite map_size_delete.
    by destruct (pending m !! ident).
  - unfold PendingRequests, IsPending.
    destruct (pending m !! ident) eqn:Hl; [|done]. intros _.
    assert (size (pending m) ≠ 0%nat); [|lia].
    eapply map_size_ne_0_lookup_2. by rewrite Hl.
Qed.

(** X4. A request that is created and then deregistered leaves the pending
    table of its manager as it was before the [Create], provided its
    identifier was not pending then; only the counter has advanced. *)
Theorem Create_deregister (self : loc) (tmo : Z) (h h' : Heap)
    (m m' : RequestManager) (p : loc) (r : Request) :
  mgrs h !! self = Some m →
  Create self tmo h = Some (p, h') →
  reqs h' !! p = Some r →
  mgrs h' !! self = Some m' →
  IsPending (Identifier r) m = false →
  pending (deregister (Identifier r) m') = pending m ∧
  PendingRequests (deregister (Identifier r) m') = PendingRequests m ∧
  lastID (deregister (Identifier r) m') = uint64_incr (lastID m).
Proof.
  intros Hm Hc Hr Hm' Hpend. unfold Create in Hc. rewrite Hm in Hc.
  simplify_eq/=. rewrite lookup_insert_eq in Hr.
  try rewrite lookup_insert_eq in Hm'. simplify_eq/=.
  apply IsPending_false in Hpend. unfold Identifier in *. simpl in *.
  assert (delete (PutUint64 (uint64_incr (lastID m)))
            (<[PutUint64 (uint64_incr (lastID m)) :=
                 fresh (dom (reqs h))]> (pending m)) = pending m) as Heq.
  { rewrite delete_insert_eq. by apply delete_id. }
  unfold PendingRequests. simpl. by rewrite Heq.
Qed.

(** ** Further properties of runs *)

(** X5. The identifier returned by a call of [Create] is the encoding of
    the number of the call modulo [2 ^ 64], with or without a wrap-around:
    the counter of the manager is the number of calls modulo [2 ^ 64], the
    next call returns the encoding of its successor, and two calls whose
    numbers agree modulo [2 ^ 64] return the same identifier. *)
Theorem Create_identifiers_wrap (acts : list action) (evs : list event)
    (s : State) (a : loc) :
  run acts init = Some (evs, s) →
  (∀ k ident,
     created a evs !! k = Some ident →
     ident = PutUint64 ((Z.of_nat k + 1) mod uint64_modulus)) ∧
  (∀ m,
     mgrs (heap s) !! a = Some m →
     lastID m = Z.of_nat (length (created a evs)) mod uint64_modulus ∧
     ∀ tmo p h' r,
       Create a tmo (heap s) = Some (p, h') → reqs h' !! p = Some r →
       Identifier r
       = PutUint64 ((Z.of_nat (length (created a evs)) + 1)
                    mod uint64_modulus)) ∧
  (∀ i j x y,
     created a evs !! i = Some x → created a evs !! j = Some y →
     Z.of_nat i mod uint64_modulus = Z.of_nat j mod uint64_modulus →
     x = y).
Proof.
  intros Hrun. pose proof (run_tinv _ _ _ Hrun) as Hti. split_and!.
  - apply (ti_ids _ _ Hti).
  - intros m Hm. pose proof (ti_alloc _ _ Hti _ _ Hm) as Hl.
    split; [done|]. intros tmo p h' r Hc Hr.
    unfold Create in Hc. rewrite Hm in Hc. simplify_eq/=.
    rewrite lookup_insert_eq in Hr. simplify_eq/=.
    unfold Identifier. simpl. rewrite Hl, incr_of_length.
    do 2 f_equal. lia.
  - intros i j x y Hi Hj Hij.
    rewrite (ti_ids _ _ Hti _ _ _ Hi), (ti_ids _ _ Hti _ _ _ Hj).
    f_equal. rewrite (Z.add_mod (Z.of_nat i)), (Z.add_mod (Z.of_nat j))
      by (unfold uint64_modulus; lia).
    by rewrite Hij.
Qed.

Lemma occurrences_notin ident l : ident ∉ l → occurrences ident l = 0%nat.
Proof.
  intros Hn. destruct (occurrences ident l) eqn:Ho; [done|].
  exfalso. apply Hn, occurrences_pos. lia.
Qed.

Lemma removals_app a evs1 evs2 :
  removals a (evs1 ++ evs2) = removals a evs1 ++ removals a evs2.
Proof. apply filter_app. Qed.

Lemma pending_count_insert a h a' m' rq ch :
  pending_count a
    {| mgrs := <[a' := m']> (mgrs h); reqs := rq; chans := ch |}
  = if decide (a' = a) then PendingRequests m' else pending_count a h.
Proof.
  unfold pending_count. simpl. rewrite lookup_insert.
  by destruct (decide (a' = a)).
Qed.

Lemma pending_count_same_mgrs a h rq ch :
  pending_count a {| mgrs := mgrs h; reqs := rq; chans := ch |}
  = pending_count a h.
Proof. done. Qed.

(** A [deregister] moves a pending entry from the table to the removals. *)
Lemma removal_deregister a0 h a ident m ev :
  mgrs h !! a = Some m →
  removes_at a0 ev =
    match entry_at a ident h with
    | Some _ => bool_decide (a = a0)
    | None => false
    end →
  (pending_count a0 {| mgrs := <[a := deregister ident m]> (mgrs h);
                       reqs := reqs h; chans := chans h |}
   + length (removals a0 [ev])
   = pending_count a0 h)%nat.
Proof.
  intros Hm Hev. unfold removals. rewrite filter_cons, filter_nil.
  rewrite pending_count_insert. unfold entry_at in Hev. rewrite Hm in Hev.
  destruct (decide (a = a0)) as [->|Hne].
  - unfold pending_count. rewrite Hm. unfold PendingRequests. simpl.
    rewrite map_size_delete.
    destruct (pending m !! ident) eqn:Hl; rewrite Hev.
    + rewrite bool_decide_eq_true_2 by done. rewrite decide_True by done.
      assert (size (pending m) ≠ 0%nat).
      { eapply map_size_ne_0_lookup_2. by rewrite Hl. }
      simpl. lia.
    + rewrite decide_False by done. simpl. lia.
  - assert (removes_at a0 ev = false) as ->.
    { rewrite Hev. destruct (pending m !! ident); [|done].
      by apply bool_decide_eq_false_2. }
    rewrite decide_False by done. simpl. lia.
Qed.

Lemma accounting_step evs s act ev s' a :
  tinv evs s → step act s = Some (ev, s') →
  Z.of_nat (length (created a (evs ++ [ev]))) < uint64_modulus →
  (pending_count a (heap s) + length (removals a evs)
   = length (created a evs))%nat →
  (pending_count a (heap s') + length (removals a (evs ++ [ev]))
   = length (created a (evs ++ [ev])))%nat.
Proof.
  intros Hti Hst Hlen Hacc.
  rewrite removals_app, created_app, !length_app in *.
  step_inv Hst; bool_facts; simpl in *.
  all: rewrite ?pending_count_same_mgrs; try lia.
  all: try (match goal with
            | Hm : mgrs _ !! ?a' = Some ?m
              |- context [length (removals ?a0 [?ev])] =>
                pose proof (removal_deregister a0 _ _ _ _ ev Hm eq_refl)
            end; lia).
  - rewrite pending_count_insert. case_decide; [|lia]. subst a.
    unfold pending_count in Hacc. rewrite fresh_lookup_None in Hacc.
    change (PendingRequests NewRequestManager) with 0%nat. lia.
  - subst a1. rewrite pending_count_insert, decide_True by done.
    match goal with
    | Hm : mgrs _ !! a = Some ?m |- _ =>
        unfold pending_count in Hacc; rewrite Hm in Hacc;
        pose proof (next_id_new _ _ _ _ Hti Hm ltac:(lia)) as Hnew;
        pose proof (ti_claims _ _ Hti a (PutUint64 (uint64_incr (lastID m))))
          as Hcl;
        rewrite (pend_lookup _ _ _ _ Hm) in Hcl
    end.
    rewrite occurrences_notin in Hcl by done.
    unfold PendingRequests, IsPending in *. simpl.
    rewrite map_size_insert.
    destruct (pending _ !! _); simpl in *; lia.
  - rewrite pending_count_insert, decide_False by done. lia.
Qed.

(** X6. Short of a wrap-around of its counter, a manager's
    [PendingRequests] is the number of its [Create] calls minus the number
    of [deregister] calls that found their entry: every request made is
    pending until one step deletes it, and nothing else leaves or enters the
    table. *)
Theorem pending_accounting (acts : list action) (evs : list event)
    (s : State) (a : loc) :
  run acts init = Some (evs, s) →
  Z.of_nat (length (created a evs)) < uint64_modulus →
  (pending_count a (heap s) + length (removals a evs)
   = length (created a evs))%nat.
Proof.
  intros Hrun%run_exec.
  induction Hrun as [|evs s act ev s' Hex IH Hst]; intros Hlen; [done|].
  eapply accounting_step; [by apply exec_tinv|done..|].
  apply IH. rewrite created_app, length_app in Hlen. lia.
Qed.

Lemma gone_step evs s act ev s' a ident :
  tinv evs s → step act s = Some (ev, s') →
  ident ∈ created a evs → pend a ident (heap s) = 0%nat →
  Z.of_nat (length (created a (evs ++ [ev]))) < uint64_modulus →
  pend a ident (heap s') = 0%nat.
Proof.
  intros Hti Hst Hin Hz Hlen.
  rewrite created_app, length_app in Hlen.
  step_inv Hst; bool_facts; simpl in *.
  all: rewrite ?pend_same_mgrs; try done.
  1: { rewrite pend_insert. by case_decide. }
  1, 2: rewrite pend_insert; case_decide; [|done]; subst;
    unfold IsPending; simpl; rewrite lookup_insert; case_decide;
    [ exfalso; subst ident;
      eapply next_id_new; [done..| |exact Hin]; simpl in Hlen; lia
    | match goal with
      | Hm : mgrs _ !! _ = Some _ |- _ =>
          rewrite (pend_lookup _ _ _ _ Hm) in Hz
      end;
      by unfold IsPending in Hz ].
  all: by (eapply Nat.le_0_r; rewrite <- Hz; apply pend_deregister_le).
Qed.

(** X7. Identifiers are not reused short of a wrap-around: once an
    identifier that [Create] has returned is no longer pending, whether a
    resolver, a timeout or a cancellation removed it, it is never pending
    again, and every [Fulfill] or [Fail] for it that stands at its lookup
    misses and returns [false]. *)
Theorem never_pending_again (acts1 acts2 : list action)
    (evs1 evs2 : list event) (s1 s2 : State) (a : loc)
    (ident : RequestIdentifier) :
  run acts1 init = Some (evs1, s1) →
  run acts2 s1 = Some (evs2, s2) →
  ident ∈ created a evs1 →
  is_pending_at a ident (heap s1) = false →
  Z.of_nat (length (created a (evs1 ++ evs2))) < uint64_modulus →
  is_pending_at a ident (heap s2) = false ∧
  ∀ t c,
    procs s2 !! t = Some {| p_call := c; p_pc := AtEntry |} →
    call_target c = Some (a, ident) →
    step (ARun t) s2
    = Some (ELookup t None, set_proc t c (Returned (RBool false)) s2).
Proof.
  intros Hr1 Hr2 Hin Hgone Hlen.
  pose proof (run_wf _ _ _ Hr1) as Hwf1.
  pose proof (run_tinv _ _ _ Hr1) as Hti1.
  pose proof (run_exec _ _ _ _ Hr2) as Hex.
  assert (Hz : pend a ident (heap s2) = 0%nat).
  { clear Hr2. apply pend_zero in Hgone.
    induction Hex as [|evs s act ev s' Hex IH Hst]; [done|].
    destruct (exec_suffix_inv _ _ _ _ Hwf1 Hti1 Hex) as [_ Htis].
    rewrite app_assoc in Hlen.
    eapply gone_step; [exact Htis|exact Hst| | |exact Hlen].
    - rewrite created_app. apply elem_of_app. by left.
    - apply IH. rewrite created_app, length_app in Hlen. lia. }
  apply pend_zero in Hz. split; [done|].
  intros t c Hp Hc.
  destruct (exec_suffix_inv _ _ _ _ Hwf1 Hti1 Hex) as [Hwf2 _].
  destruct (wf_target _ Hwf2 _ _ _ _ _ Hp Hc) as [m Hm].
  unfold is_pending_at in Hz. rewrite Hm in Hz.
  apply IsPending_false in Hz. by eapply lookup_miss_step.
Qed.

Lemma past_send_mono_step s act ev s' ts cs pcs :
  step act s = Some (ev, s') →
  procs s !! ts = Some {| p_call := cs; p_pc := pcs |} →
  pcs = AtDeregister ∨ pcs = Returned (RBool true) →
  ∃ pcs',
    procs s' !! ts = Some {| p_call := cs; p_pc := pcs' |} ∧
    (pcs' = AtDeregister ∨ pcs' = Returned (RBool true)).
Proof.
  intros Hst Hp Hpc. step_inv Hst; simpl.
  all: repeat (rewrite lookup_insert; destruct (decide _); simplify_eq/=).
  all: try (destruct Hpc; simplify_eq; fail).
  all: eauto.
Qed.

Lemma outcome_source_mono_step s act ev s' p res :
  step act s = Some (ev, s') →
  outcome_source s p res → outcome_source s' p res.
Proof.
  intros Hst (r & Hr & Hsrc). exists r.
  split; [by eapply reqs_mono_step|].
  destruct Hsrc as [?|[?|(ts & cs & pcs & v & Hts & Hpc & ? & ? & ?)]];
    [by left|by right; left|].
  destruct (past_send_mono_step _ _ _ _ _ _ _ Hst Hts Hpc)
    as (pcs' & ? & ?).
  right; right. by exists ts, cs, pcs', v.
Qed.

Lemma outcome_source_step s act ev s' :
  wf s →
  (∀ t p res,
     procs s !! t = Some {| p_call := CAwaitReply p; p_pc := Returned res |} →
     outcome_source s p res) →
  step act s = Some (ev, s') →
  ∀ t p res,
    procs s' !! t = Some {| p_call := CAwaitReply p; p_pc := Returned res |} →
    outcome_source s' p res.
Proof.
  intros Hwf IH Hst t p res Hp.
  assert (Hmono : ∀ p res, outcome_source s p res → outcome_source s' p res)
    by (intros; by eapply outcome_source_mono_step).
  pose proof (wf_send _ Hwf) as Hsd.
  pose proof (wf_chan_inj _ Hwf) as Hinj.
  step_wf Hwf Hst; simpl in *; map_cases; eauto.
  - assert (req = p) as -> by eauto.
    destruct (Hsd _ _ _ _ H) as (a1 & i1 & q1 & ? & ? & ? & ? & ?).
    simplify_eq. eexists. split; [done|]. right; right.
    exists ts, p_call0, AtDeregister, v. simpl.
    split_and!; try done; [|by left].
    rewrite lookup_insert_ne; [by rewrite lookup_insert_eq|].
    intros ->. rewrite H in H0. discriminate.
  - eexists. split; [done|]. right; left. by exists e.
  - eexists. split; [done|]. by left.
Qed.

(** X8. No cross-talk: in every reachable state, whatever an [AwaitReply]
    has returned is the timeout outcome, the cancellation outcome, or what
    the [select] makes of the reply of a [Fulfill] or [Fail] call that was
    made for the manager and the identifier of this very request and has
    got past its send. *)
Theorem await_outcome_source (acts : list action) (evs : list event)
    (s : State) (t : nat) (p : loc) (res : result) :
  run acts init = Some (evs, s) →
  procs s !! t = Some {| p_call := CAwaitReply p; p_pc := Returned res |} →
  outcome_source s p res.
Proof.
  intros Hrun%run_exec. revert t p res.
  induction Hrun as [|evs s act ev s' Hex IH Hst]; intros t p res Hp.
  - done.
  - eapply outcome_source_step; [|exact IH|exact Hst|exact Hp].
    eapply exec_wf; [apply wf_init|exact Hex].
Qed.

(** X9. Whenever [Fail] has returned [true], an [AwaitReply] on the handle
    of its identifier has returned the reply it sent: a nil payload with
    the error given to [Fail], or, when that error is nil, the empty payload
    with a nil error. *)
Theorem Fail_delivers (acts : list action) (evs : list event) (s : State)
    (t : nat) (a : loc) (ident : RequestIdentifier) (e : error) :
  run acts init = Some (evs, s) →
  procs s !! t =
    Some {| p_call := CFail a ident e; p_pc := Returned (RBool true) |} →
  ∃ tA p r,
    procs s !! tA =
      Some {| p_call := CAwaitReply p;
              p_pc := Returned
                (match e with
                 | Some x => RReply None (Some x)
                 | None => RReply (Some empty_EncodedPayload) None
                 end) |} ∧
    reqs (heap s) !! p = Some r ∧ Identifier r = ident ∧ manager r = a.
Proof.
  intros Hrun Hp. pose proof (run_wf _ _ _ Hrun) as Hwf.
  destruct (wf_true _ Hwf _ _ Hp)
    as (a1 & i1 & v & tA & p & r & ? & ? & HtA & ? & ? & ?).
  simplify_eq/=. exists tA, p, r. split_and!; try done.
  rewrite HtA. by destruct e.
Qed.

Lemma blocked_step s act ev s' t c p v :
  wf s → step act s = Some (ev, s') →
  procs s !! t = Some {| p_call := c; p_pc := AtSend p v |} →
  no_waiter p s → starts_await p act = false →
  procs s' !! t = Some {| p_call := c; p_pc := AtSend p v |} ∧
  no_waiter p s'.
Proof.
  intros Hwf Hst Hp Hnw Hact.
  pose proof (wf_chan_inj _ Hwf) as Hinj. unfold no_waiter in *.
  step_wf Hwf Hst; simpl in *.
  all: repeat match goal with
       | |- context [<[?i:=_]> _ !! ?j] =>
           rewrite (lookup_insert _ i j); destruct (decide (i = j));
             simplify_eq/=
       end.
  all: try (split; [done|]).
  all: repeat (apply map_Forall_insert_2; [done|]); try done.
  - apply map_Forall_insert_2; [|done]. simpl.
    by apply bool_decide_eq_false_2.
  - exfalso. assert (req = req0) as -> by eauto.
    match goal with
    | Hw : procs s !! tr = Some _ |- _ => pose proof (Hnw _ _ Hw) as Hbad
    end.
    simpl in Hbad. by apply bool_decide_eq_false_1 in Hbad.
  - apply map_Forall_insert_2; [|done]. by destruct p_call0.
Qed.

(** X10. A resolver that stands at its send while no [AwaitReply] on the
    handle of its request is waiting stays there, whatever else happens, as
    long as no further [AwaitReply] is started on that handle: after a
    timeout or a cancellation has won, the [Fulfill] or [Fail] that had
    found the entry does not return. *)
Theorem resolver_stays_blocked (acts1 acts2 : list action)
    (evs1 evs2 : list event) (s1 s2 : State) (t : nat) (c : call)
    (p : loc) (v : reply) :
  run acts1 init = Some (evs1, s1) →
  run acts2 s1 = Some (evs2, s2) →
  procs s1 !! t = Some {| p_call := c; p_pc := AtSend p v |} →
  no_waiter p s1 →
  Forall (λ act, starts_await p act = false) acts2 →
  procs s2 !! t = Some {| p_call := c; p_pc := AtSend p v |} ∧
  no_waiter p s2 ∧
  step (ARun t) s2 = None.
Proof.
  intros Hr1 Hr2 Hp Hnw Hacts.
  pose proof (run_wf _ _ _ Hr1) as Hwf. clear Hr1.
  revert s1 evs2 Hr2 Hp Hnw Hwf.
  induction Hacts as [|act acts2 Hact _ IH]; intros s1 evs2 Hr2 Hp Hnw Hwf.
  - simpl in Hr2. simplify_eq. split_and!; [done..|].
    by eapply send_blocked.
  - rewrite run_cons in Hr2.
    destruct (step act s1) as [[ev s']|] eqn:Hst; [|done].
    destruct (run acts2 s') as [[evs' s'']|] eqn:Hr'; [|done].
    simplify_eq.
    destruct (blocked_step _ _ _ _ _ _ _ _ Hwf Hst Hp Hnw Hact) as [Hp' Hnw'].
    eapply IH; [exact Hr'|done..|by eapply wf_step].
Qed.

Lemma pend_one a ident h :
  pend a ident h = 1%nat ↔ is_pending_at a ident h = true.
Proof. unfold pend. destruct (is_pending_at a ident h); naive_solver. Qed.

Lemma claims_singleton a ident ev :
  length (claims a ident [ev]) = (if is_claim a ident ev then 1 else 0)%nat.
Proof.
  unfold claims. rewrite filter_cons, filter_nil.
  destruct (is_claim a ident ev); by case_decide.
Qed.

(** What one step does to the pending state of an identifier. *)
Lemma pend_step s act ev s' a ident :
  step act s = Some (ev, s') →
  (pend a ident (heap s') + length (claims a ident [ev])
   = pend a ident (heap s))%nat ∨
  (∃ p r, ev = ECreate a p r ∧ identifier r = ident ∧
          pend a ident (heap s') = 1%nat).
Proof.
  intros Hst.
  step_inv Hst; bool_facts; simpl in *.
  all: rewrite ?pend_same_mgrs; try (left; lia).
  all: try (left;
            match goal with
            | Hm : mgrs _ !! ?a' = Some ?m
              |- context [length (claims ?a0 ?i0 [?ev])] =>
                pose proof (claim_deregister a0 i0 _ _ _ _ ev Hm eq_refl)
            end; lia).
  - left. rewrite pend_insert. case_decide; [|lia]. subst a.
    rewrite (proj2 (pend_zero _ ident (heap s))); [done|].
    unfold is_pending_at. by rewrite fresh_lookup_None.
  - rewrite pend_insert. case_decide; [|left; lia]. subst a0.
    unfold IsPending. simpl. rewrite lookup_insert. case_decide.
    + right. eexists _, _. by split_and!.
    + left.
      match goal with
      | Hm : mgrs _ !! _ = Some _ |- _ => rewrite (pend_lookup _ _ _ _ Hm)
      end.
      unfold IsPending. lia.
Qed.


(** X11. Requests are isolated from one another.  Whatever step is taken,
    an identifier becomes pending only by the [Create] that returns it,
    stops being pending only by a [deregister] for this very identifier on
    this very manager, a manager's counter changes only by a [Create] on
    it, and no request, once made, is changed or lost. *)
Theorem step_isolation (s s' : State) (act : action) (ev : event) (a : loc)
    (ident : RequestIdentifier) :
  step act s = Some (ev, s') →
  (is_pending_at a ident (heap s) = false →
   is_pending_at a ident (heap s') = true →
   ∃ p r, ev = ECreate a p r ∧ Identifier r = ident) ∧
  (is_pending_at a ident (heap s) = true →
   is_pending_at a ident (heap s') = false →
   is_claim a ident ev = true) ∧
  (∀ m m',
     mgrs (heap s) !! a = Some m → mgrs (heap s') !! a = Some m' →
     lastID m' ≠ lastID m → ∃ p r, ev = ECreate a p r) ∧
  (∀ p r, reqs (heap s) !! p = Some r → reqs (heap s') !! p = Some r).
Proof.
  intros Hst. split_and!; [| | |by eapply reqs_mono_step].
  - intros H0%pend_zero H1%pend_one.
    destruct (pend_step _ _ _ _ a ident Hst) as [Heq|(p & r & -> & <- & _)];
      [lia|by exists p, r].
  - intros H1%pend_one H0%pend_zero.
    destruct (pend_step _ _ _ _ a ident Hst) as [Heq|(p & r & _ & _ & Hone)];
      [|lia].
    rewrite claims_singleton in Heq.
    destruct (is_claim a ident ev); [done|lia].
  - intros m m' Hm Hm' Hne.
    step_inv Hst; simpl in *; map_cases; try done; eauto.
    by rewrite fresh_lookup_None in Hm.
Qed.

(** ** One reply per request *)

Lemma proc_step_inv s act ev s' t c pc' :
  wf s → step act s = Some (ev, s') →
  procs s' !! t = Some {| p_call := c; p_pc := pc' |} →
  ∃ before,
    moves s ev t c before pc' ∧
    match before with
    | None => procs s !! t = None
    | Some at_pc => procs s !! t = Some {| p_call := c; p_pc := at_pc |}
    end.
Proof.
  intros Hwf Hst Hp.
  pose proof (wf_chan_inj _ Hwf) as Hinj.
  step_wf Hwf Hst; simpl in *; map_cases.
  all: try (eexists (Some _); split; [|eassumption];
            by (apply mv_same; [intros ?|]; intros [=]; congruence)).
  all: try (exists None; split; [by apply mv_go|done]).
  all: try (eexists (Some _); split; [|eassumption];
            first [ by (eapply mv_miss; eauto)
                  | by eapply mv_hit
                  | by eapply mv_dereg
                  | by eapply mv_abandon ]).
  - assert (req = req0) as -> by eauto.
    eexists (Some _). split; [|eassumption]. by eapply mv_recv.
  - assert (req = req0) as -> by eauto.
    eexists (Some _). split; [|eassumption]. by eapply mv_sent.
Qed.

Lemma proc_persist_step s act ev s' t c at_pc :
  step act s = Some (ev, s') →
  procs s !! t = Some {| p_call := c; p_pc := at_pc |} →
  ∃ pc', procs s' !! t = Some {| p_call := c; p_pc := pc' |}.
Proof.
  intros Hst Hp. step_inv Hst; simpl.
  all: repeat (rewrite lookup_insert; destruct (decide _); simplify_eq/=).
  all: eauto.
Qed.

Lemma lookup_event_inv s act t q s' :
  step act s = Some (ELookup t (Some q), s') →
  ∃ c v, procs s' !! t = Some {| p_call := c; p_pc := AtSend q v |}.
Proof.
  intros Hst. step_inv Hst; simpl; rewrite lookup_insert_eq; eauto.
Qed.

Lemma linv_init p : linv p [] init.
Proof.
  split; simpl; intros *.
  - by rewrite lookup_empty.
  - by intros ?%elem_of_nil.
  - by rewrite lookup_empty.
Qed.

Lemma linv_step p evs s act ev s' :
  wf s → linv p evs s → step act s = Some (ev, s') →
  linv p (evs ++ [ev]) s'.
Proof.
  intros Hwf Hli Hst. split.
  - intros t at_pc Hp.
    destruct (proc_step_inv _ _ _ _ _ _ _ Hwf Hst Hp) as (before & Hmv & Hb).
    apply elem_of_app.
    destruct before as [pc0|].
    + left. by eapply (li_await _ _ _ Hli).
    + right. inversion Hmv; subst. by apply list_elem_of_singleton.
  - intros t q [Hin|Hin%list_elem_of_singleton]%elem_of_app.
    + destruct (li_found _ _ _ Hli _ _ Hin) as (c & pc0 & Hp & Hpc).
      destruct (proc_persist_step _ _ _ _ _ _ _ Hst Hp) as [pc' Hp'].
      exists c, pc'. split; [done|].
      destruct (proc_step_inv _ _ _ _ _ _ _ Hwf Hst Hp')
        as (before & Hmv & Hb).
      destruct before as [pc1|]; [|by rewrite Hp in Hb]. simplify_eq.
      destruct Hpc as [[v ->]|[-> | ->]]; inversion Hmv; subst;
        unfold past_send; eauto.
    + subst ev. destruct (lookup_event_inv _ _ _ _ _ Hst) as (c & v & Hp).
      exists c, (AtSend q v). eauto.
  - intros t c at_pc Hp Hpast Hin.
    assert (Hin' : ELookup t (Some p) ∈ evs).
    { apply elem_of_app in Hin as [?|Hin%list_elem_of_singleton]; [done|].
      subst ev. destruct (lookup_event_inv _ _ _ _ _ Hst) as (c' & v & Hp').
      rewrite Hp in Hp'. simplify_eq. by destruct Hpast. }
    destruct (proc_step_inv _ _ _ _ _ _ _ Hwf Hst Hp) as (before & Hmv & Hb).
    destruct before as [pc0|];
      [|inversion Hmv; subst; by destruct Hpast].
    assert (Hold : past_send pc0 →
      ∃ tA res, procs s' !! tA
        = Some {| p_call := CAwaitReply p; p_pc := Returned res |}).
    { intros Hpast0.
      destruct (li_past _ _ _ Hli _ _ _ Hb Hpast0 Hin') as (tA & res & HtA).
      exists tA, res. by eapply returned_mono_step. }
    destruct Hpast as [-> | ->]; inversion Hmv; subst;
      try (apply Hold; unfold past_send; by eauto).
    (* the send has just been received *)
    destruct (li_found _ _ _ Hli _ _ Hin') as (c' & pc1 & Hp1 & Hpc1).
    rewrite Hb in Hp1. simplify_eq.
    destruct Hpc1 as [[v' [= -> ->]]|[?|?]]; [|done..].
    match goal with
    | Hw : procs s !! ?tr = Some {| p_call := CAwaitReply p; p_pc := AtEntry |}
      |- _ =>
        destruct (send_leave_inv _ _ _ _ _ _ _ _ Hwf Hst Hb)
          as (tr' & _ & [= <-] & _ & Htr & _); [by rewrite Hp|];
        eauto
    end.
Qed.

Lemma awaits_started_app p evs1 evs2 :
  awaits_started p (evs1 ++ evs2)
  = awaits_started p evs1 ++ awaits_started p evs2.
Proof. apply filter_app. Qed.

Lemma awaits_started_elem p t evs :
  EGo t (CAwaitReply p) ∈ evs → EGo t (CAwaitReply p) ∈ awaits_started p evs.
Proof.
  intros Hin. apply list_elem_of_filter. split; [|done].
  simpl. by rewrite bool_decide_eq_true.
Qed.

Lemma awaits_two p evs t1 t2 :
  EGo t1 (CAwaitReply p) ∈ evs → EGo t2 (CAwaitReply p) ∈ evs → t1 ≠ t2 →
  (2 ≤ length (awaits_started p evs))%nat.
Proof.
  intros H1%awaits_started_elem H2%awaits_started_elem Hne.
  destruct (awaits_started p evs) as [|x [|y l]]; simpl; [| |lia].
  - by apply elem_of_nil in H1.
  - apply list_elem_of_singleton in H1, H2. congruence.
Qed.

Lemma awaits_one p evs t :
  EGo t (CAwaitReply p) ∈ evs → (1 ≤ length (awaits_started p evs))%nat.
Proof.
  intros H1%awaits_started_elem.
  destruct (awaits_started p evs); simpl; [|lia].
  by apply elem_of_nil in H1.
Qed.

(** A resolver that found [p] and is past its send after a step either was
    past its send before, or has just handed its reply to a waiting
    [AwaitReply] on [p]. *)
Lemma past_send_step_inv p evs s act ev s' t c pc' :
  wf s → linv p evs s → step act s = Some (ev, s') →
  ELookup t (Some p) ∈ evs ++ [ev] →
  procs s' !! t = Some {| p_call := c; p_pc := pc' |} → past_send pc' →
  ELookup t (Some p) ∈ evs ∧
  ((∃ pc0, procs s !! t = Some {| p_call := c; p_pc := pc0 |} ∧
           past_send pc0 ∧ ∀ t' c', ev ≠ EGo t' c') ∨
   (∃ tr v res,
      ev = EHandoff t tr v ∧
      procs s !! tr = Some {| p_call := CAwaitReply p; p_pc := AtEntry |} ∧
      procs s' !! tr
      = Some {| p_call := CAwaitReply p; p_pc := Returned res |}) ∨
   (∃ pc0, procs s !! t = Some {| p_call := c; p_pc := pc0 |} ∧
           past_send pc0 ∧ ∃ t' c', ev = EGo t' c')).
Proof.
  intros Hwf Hli Hst Hin Hp Hpast.
  assert (Hin' : ELookup t (Some p) ∈ evs).
  { apply elem_of_app in Hin as [?|Hin%list_elem_of_singleton]; [done|].
    subst ev. destruct (lookup_event_inv _ _ _ _ _ Hst) as (c' & v & Hp').
    rewrite Hp in Hp'. simplify_eq. by destruct Hpast. }
  split; [done|].
  destruct (proc_step_inv _ _ _ _ _ _ _ Hwf Hst Hp) as (before & Hmv & Hb).
  destruct before as [pc0|];
    [|inversion Hmv; subst; by destruct Hpast].
  destruct (li_found _ _ _ Hli _ _ Hin') as (c' & pc1 & Hp1 & Hpc1).
  rewrite Hb in Hp1. simplify_eq.
  destruct Hpc1 as [[v' ->]|Hpast0].
  - right; left.
    destruct (send_leave_inv _ _ _ _ _ _ _ _ Hwf Hst Hb)
      as (tr & _ & -> & Htr & Htr' & _).
    { rewrite Hp. intros [=]. subst. by destruct Hpast. }
    eexists tr, v', _. split_and!; [done|done|exact Htr'].
  - destruct ev;
      try (left; exists pc1; split_and!; [done|done|by intros]).
    right; right. exists pc1. split_and!; eauto.
Qed.

Lemma waiting_step_inv s act ev s' t p :
  wf s → step act s = Some (ev, s') →
  procs s' !! t = Some {| p_call := CAwaitReply p; p_pc := AtEntry |} →
  procs s !! t = Some {| p_call := CAwaitReply p; p_pc := AtEntry |} ∨
  ev = EGo t (CAwaitReply p).
Proof.
  intros Hwf Hst Hp.
  destruct (proc_step_inv _ _ _ _ _ _ _ Hwf Hst Hp) as (before & Hmv & Hb).
  inversion Hmv; subst; eauto.
Qed.

Lemma single_inv_step p evs s act ev s' :
  wf s → linv p evs s → single_inv p evs s →
  step act s = Some (ev, s') →
  (length (awaits_started p (evs ++ [ev])) ≤ 1)%nat →
  single_inv p (evs ++ [ev]) s'.
Proof.
  intros Hwf Hli Hsi Hst Hlen t1 c1 pc1 Hin1 Hp1 Hpast1.
  rewrite awaits_started_app, length_app in Hlen.
  destruct (past_send_step_inv _ _ _ _ _ _ _ _ _ Hwf Hli Hst Hin1 Hp1 Hpast1)
    as [Hin1' Hcase1].
  split.
  - intros tA HtA.
    destruct (waiting_step_inv _ _ _ _ _ _ Hwf Hst HtA) as [HtA0|Hgo].
    + destruct Hcase1
        as [(pc0 & Hp0 & Hpast0 & _)|[(tr & v & res & -> & Htr & Htr')
           |(pc0 & Hp0 & Hpast0 & _)]].
      * by destruct (Hsi _ _ _ Hin1' Hp0 Hpast0) as [Hno _]; destruct (Hno tA).
      * assert (tA ≠ tr) by (intros ->; rewrite HtA in Htr'; done).
        pose proof (awaits_two p evs tA tr
          (li_await _ _ _ Hli _ _ HtA0) (li_await _ _ _ Hli _ _ Htr)).
        lia.
      * by destruct (Hsi _ _ _ Hin1' Hp0 Hpast0) as [Hno _]; destruct (Hno tA).
    + subst ev.
      destruct Hcase1
        as [(pc0 & Hp0 & Hpast0 & Hne)|[(tr & v & res & [=] & _)
           |(pc0 & Hp0 & Hpast0 & _)]].
      * by destruct (Hne tA (CAwaitReply p)).
      * destruct (li_past _ _ _ Hli _ _ _ Hp0 Hpast0 Hin1')
          as (tA' & res & HtA').
        pose proof (awaits_one p evs tA' (li_await _ _ _ Hli _ _ HtA')).
        unfold awaits_started at 2 in Hlen. rewrite filter_cons in Hlen.
        simpl in Hlen. rewrite decide_True in Hlen; [simpl in Hlen; lia|].
        by rewrite bool_decide_eq_true.
  - intros t2 c2 pc2 Hin2 Hp2 Hpast2.
    destruct (past_send_step_inv _ _ _ _ _ _ _ _ _ Hwf Hli Hst Hin2 Hp2 Hpast2)
      as [Hin2' Hcase2].
    assert (Hold : ∀ t c pc0 tr,
      ELookup t (Some p) ∈ evs →
      procs s !! t = Some {| p_call := c; p_pc := pc0 |} → past_send pc0 →
      procs s !! tr = Some {| p_call := CAwaitReply p; p_pc := AtEntry |} →
      False).
    { intros t c pc0 tr Hin Hp Hpast Htr.
      destruct (Hsi _ _ _ Hin Hp Hpast) as [Hno _]. by destruct (Hno tr). }
    destruct Hcase1
      as [(pc0 & Hp0 & Hpast0 & _)|[(tr & v & res & Hev & Htr & _)
         |(pc0 & Hp0 & Hpast0 & _)]];
    destruct Hcase2
      as [(pc0' & Hp0' & Hpast0' & _)|[(tr' & v' & res' & Hev' & Htr' & _)
         |(pc0' & Hp0' & Hpast0' & _)]];
    try (by destruct (Hsi _ _ _ Hin1' Hp0 Hpast0) as [_ Huniq]; eauto);
    try (by exfalso; eauto).
    congruence.
Qed.

Lemma exec_single_inv p evs s :
  exec init evs s → (length (awaits_started p evs) ≤ 1)%nat →
  linv p evs s ∧ single_inv p evs s.
Proof.
  induction 1 as [|evs s act ev s' Hex IH Hst]; intros Hlen.
  - split; [apply linv_init|].
    by intros t1 c1 pc1 ?%elem_of_nil.
  - destruct IH as [Hli Hsi].
    { rewrite awaits_started_app, length_app in Hlen. lia. }
    pose proof (exec_wf _ _ _ wf_init Hex) as Hwf.
    split; [by eapply linv_step|by eapply single_inv_step].
Qed.

(** X12. When [AwaitReply] is started at most once on a handle, at most one
    of the [Fulfill] and [Fail] calls that found the request gets past its
    send; and once one is past it, no [AwaitReply] on the handle is waiting
    any more. *)
Theorem single_delivery acts evs s p t1 c1 pc1 :
  run acts init = Some (evs, s) →
  (length (awaits_started p evs) ≤ 1)%nat →
  ELookup t1 (Some p) ∈ evs →
  procs s !! t1 = Some {| p_call := c1; p_pc := pc1 |} →
  past_send pc1 →
  no_waiter p s ∧
  ∀ t2 c2 pc2,
    ELookup t2 (Some p) ∈ evs →
    procs s !! t2 = Some {| p_call := c2; p_pc := pc2 |} →
    past_send pc2 → t2 = t1.
Proof.
  intros Hr Hlen Hin Hp Hpast.
  destruct (exec_single_inv p _ _ (run_exec _ _ _ _ Hr) Hlen) as [_ Hsi].
  destruct (Hsi _ _ _ Hin Hp Hpast) as [Hno Huniq].
  split; [|done].
  intros tA [cA pcA] HtA. simpl.
  destruct cA as [| |q]; [done..|].
  destruct pcA; try done.
  apply bool_decide_eq_false. intros ->. by destruct (Hno tA).
Qed.

(** ** The claim of a waiting [AwaitReply] *)










End Properties.

(** ** Runs of the sample schedules *)

(** Witness of C10. *)
Lemma deregister_idempotent_witness :
  IsPending id1 NewRequestManager = false ∧
  deregister id1 (deregister id1 NewRequestManager)
  = deregister id1 NewRequestManager ∧
  deregister id1 NewRequestManager = NewRequestManager.
Proof.
  destruct (deregister_idempotent translate_context_error new_timeout_err
              id1 NewRequestManager) as (H1 & H2 & _).
  split; [reflexivity|]. split; [exact H1|]. apply H2. reflexivity.
Defined.



(** Witness of C9. *)
Lemma handle_table_consistency_witness :
  table_consistent (heap (state_of sched_found)) ∧
  table_consistent (heap (state_of sched_handed_over)).
Proof.
  destruct (handle_table_consistency translate_context_error new_timeout_err)
    as [Hstep Hreach].
  assert (Hfound : table_consistent (heap (state_of sched_found))).
  { apply (Hreach sched_found (trace_of sched_found)).
    vm_compute. reflexivity. }
  split; [exact Hfound|].
  apply (Hreach sched_handed_over (trace_of sched_handed_over)).
  vm_compute. reflexivity.
Defined.

(** Witness of C5: the duplicate reply of [sched_duplicate_called] finds
    nothing and returns [false]. *)
Lemma resolve_absent_noop_witness :
  procs (state_of sched_duplicate_called) !! 2%nat
  = Some {| p_call := CFulfill 0%nat id1 payload_Q; p_pc := AtEntry |} ∧
  call_target (CFulfill 0%nat id1 payload_Q) = Some (0%nat, id1) ∧
  mgrs (heap (state_of sched_duplicate_called)) !! 0%nat
  = Some {| lastID := 1; pending := ∅ |} ∧
  IsPending id1 {| lastID := 1; pending := ∅ |} = false ∧
  ∃ s',
    step translate_context_error new_timeout_err (ARun 2%nat)
      (state_of sched_duplicate_called) = Some (ELookup 2%nat None, s') ∧
    procs s' !! 2%nat
    = Some {| p_call := CFulfill 0%nat id1 payload_Q;
              p_pc := Returned (RBool false) |} ∧
    heap s' = heap (state_of sched_duplicate_called) ∧
    (∀ t', t' ≠ 2%nat →
           procs s' !! t' = procs (state_of sched_duplicate_called) !! t').
Proof.
  assert (H1 : procs (state_of sched_duplicate_called) !! 2%nat
    = Some {| p_call := CFulfill 0%nat id1 payload_Q; p_pc := AtEntry |})
    by (vm_compute; reflexivity).
  assert (H2 : mgrs (heap (state_of sched_duplicate_called)) !! 0%nat
    = Some {| lastID := 1; pending := ∅ |}) by (vm_compute; reflexivity).
  split; [exact H1|]. split; [reflexivity|]. split; [exact H2|].
  split; [reflexivity|].
  exact (resolve_absent_noop translate_context_error new_timeout_err
           _ _ _ _ _ _ H1 eq_refl H2 eq_refl).
Defined.

(** Witness of C6: three requests on one manager. *)
Lemma Create_identifiers_witness :
  run translate_context_error new_timeout_err sched_three_creates init
  = Some (trace_of sched_three_creates, state_of sched_three_creates) ∧
  created 0%nat (trace_of sched_three_creates)
  = [PutUint64 1; PutUint64 2; PutUint64 3] ∧
  Z.of_nat (length (created 0%nat (trace_of sched_three_creates)))
  < uint64_modulus ∧
  NoDup (created 0%nat (trace_of sched_three_creates)) ∧
  Uint64 (PutUint64 1) < Uint64 (PutUint64 3).
Proof.
  assert (Hrun :
    run translate_context_error new_timeout_err sched_three_creates init
    = Some (trace_of sched_three_creates, state_of sched_three_creates))
    by (vm_compute; reflexivity).
  assert (Hlen : Z.of_nat (length (created 0%nat
                   (trace_of sched_three_creates))) < uint64_modulus)
    by (vm_compute; reflexivity).
  destruct (Create_identifiers translate_context_error new_timeout_err
              _ _ _ 0%nat Hrun) as [Hk Hall].
  destruct (Hall Hlen) as [Hnd Hinc].
  split; [exact Hrun|]. split; [reflexivity|]. split; [exact Hlen|].
  split; [exact Hnd|].
  apply (Hinc 0%nat 2%nat); [lia|reflexivity|reflexivity].
Defined.

(** Witness of C1: after [sched_fulfilled] a duplicate of the reply is
    called; its lookup misses. *)
Lemma exactly_once_resolution_witness :
  run translate_context_error new_timeout_err sched_fulfilled init
  = Some (trace_of sched_fulfilled, state_of sched_fulfilled) ∧
  run translate_context_error new_timeout_err
    sched_duplicate_call (state_of sched_fulfilled)
  = Some ([EGo 2%nat (CFulfill 0%nat id1 payload_Q)],
          state_of sched_duplicate_called) ∧
  Z.of_nat (length (created 0%nat
     (trace_of sched_fulfilled ++ [EGo 2%nat (CFulfill 0%nat id1 payload_Q)])))
  < uint64_modulus ∧
  (length (claims 0%nat id1
     (trace_of sched_fulfilled ++ [EGo 2%nat (CFulfill 0%nat id1 payload_Q)]))
   ≤ 1)%nat ∧
  step translate_context_error new_timeout_err (ARun 2%nat)
    (state_of sched_duplicate_called)
  = Some (ELookup 2%nat None,
          set_proc 2%nat (CFulfill 0%nat id1 payload_Q)
            (Returned (RBool false)) (state_of sched_duplicate_called)).
Proof.
  assert (H1 :
    run translate_context_error new_timeout_err sched_fulfilled init
    = Some (trace_of sched_fulfilled, state_of sched_fulfilled))
    by (vm_compute; reflexivity).
  assert (H2 :
    run translate_context_error new_timeout_err
      sched_duplicate_call (state_of sched_fulfilled)
    = Some ([EGo 2%nat (CFulfill 0%nat id1 payload_Q)],
            state_of sched_duplicate_called))
    by (vm_compute; reflexivity).
  assert (H3 : Z.of_nat (length (created 0%nat
     (trace_of sched_fulfilled
      ++ [EGo 2%nat (CFulfill 0%nat id1 payload_Q)]))) < uint64_modulus)
    by (vm_compute; reflexivity).
  destruct (exactly_once_resolution translate_context_error new_timeout_err
              _ _ _ _ _ _ 0%nat id1 H1 H2 H3) as [Hclaims Hlate].
  split; [exact H1|]. split; [exact H2|]. split; [exact H3|].
  split; [exact Hclaims|].
  destruct (Hlate 0%nat (CFulfill 0%nat id1 payload_P)
              2%nat (CFulfill 0%nat id1 payload_Q) AtEntry)
    as [Hbad|[_ Hstep]].
  - vm_compute. reflexivity.
  - reflexivity.
  - vm_compute. reflexivity.
  - vm_compute. reflexivity.
  - reflexivity.
  - discriminate Hbad.
  - exact Hstep.
Defined.

(** Counterexample to C3 as the specification states it: the channel of
    the first request of a new manager has capacity zero. *)
Lemma reply_slot_capacity_counterexample :
  (∃ p h' r ch,
     Create 0%nat 1000 (heap (state_of [ANew])) = Some (p, h') ∧
     reqs h' !! p = Some r ∧ chans h' !! reply_ch r = Some ch ∧
     chan_cap ch = 0%nat) ∧
  ¬ reply_slot_capacity_one.
Proof.
  split.
  - eexists _, _, _, _. split; [vm_compute; reflexivity|].
    split; [vm_compute; reflexivity|]. split; [vm_compute; reflexivity|].
    reflexivity.
  - intros Hcap.
    destruct (Hcap 0%nat 1000 (heap (state_of [ANew])) _ _ eq_refl)
      as (r & ch & Hr & Hch & Hone).
    vm_compute in Hr. injection Hr as <-.
    vm_compute in Hch. injection Hch as <-.
    discriminate Hone.
Qed.

(** Witness of C3 with [Fulfill] standing at its send. *)
Lemma Create_reply_channel_witness :
  run translate_context_error new_timeout_err sched_found init
  = Some (trace_of sched_found, state_of sched_found) ∧
  (∃ p h' r,
     Create 0%nat 50 (heap (state_of sched_found)) = Some (p, h') ∧
     reqs h' !! p = Some r ∧ timeout r = 50 ∧
     chans (heap (state_of sched_found)) !! reply_ch r = None ∧
     chans h' !! reply_ch r = Some {| chan_cap := 0; chan_buf := [] |}) ∧
  step translate_context_error new_timeout_err (ARun 0%nat)
    (state_of sched_found) = None.
Proof.
  assert (Hrun :
    run translate_context_error new_timeout_err sched_found init
    = Some (trace_of sched_found, state_of sched_found))
    by (vm_compute; reflexivity).
  destruct (Create_reply_channel translate_context_error new_timeout_err
              _ _ _ Hrun) as [Hcreate Hsend].
  split; [exact Hrun|]. split.
  - destruct (Hcreate 0%nat 50 _ _ eq_refl) as (r & Hr & Ht & Hn & Hc).
    eexists _, _, r. split; [reflexivity|]. split_and!; assumption.
  - apply (Hsend 0%nat (CFulfill 0%nat id1 payload_P) 0%nat
             (fulfill_reply payload_P)).
    vm_compute. reflexivity.
Defined.


(** Witness of X20: the timeout case in [sched_waiting]. *)
Lemma abandon_unconditional_witness :
  procs (state_of sched_waiting) !! 1%nat
  = Some {| p_call := CAwaitReply 0%nat; p_pc := AtEntry |} ∧
  reqs (heap (state_of sched_waiting)) !! 0%nat = Some request1 ∧
  mgrs (heap (state_of sched_waiting)) !! 0%nat
  = Some {| lastID := 1; pending := {[ id1 := 0%nat ]} |} ∧
  ∃ ev s',
    step translate_context_error new_timeout_err (ATimer 1%nat)
      (state_of sched_waiting) = Some (ev, s') ∧
    procs s' !! 1%nat
    = Some {| p_call := CAwaitReply 0%nat;
              p_pc := Returned
                (RReply (Some empty_EncodedPayload)
                   (new_timeout_err (Some (Errorf "timed out")))) |} ∧
    reqs (heap s') = reqs (heap (state_of sched_waiting)) ∧
    chans (heap s') = chans (heap (state_of sched_waiting)).
Proof.
  assert (H1 : procs (state_of sched_waiting) !! 1%nat
    = Some {| p_call := CAwaitReply 0%nat; p_pc := AtEntry |})
    by (vm_compute; reflexivity).
  assert (H2 : reqs (heap (state_of sched_waiting)) !! 0%nat
    = Some request1) by (vm_compute; reflexivity).
  assert (H3 : mgrs (heap (state_of sched_waiting)) !! 0%nat
    = Some {| lastID := 1; pending := {[ id1 := 0%nat ]} |})
    by (vm_compute; reflexivity).
  split; [exact H1|]. split; [exact H2|]. split; [exact H3|].
  destruct (abandon_unconditional translate_context_error new_timeout_err
              _ _ _ _ _ H1 H2 H3 (ATimer 1%nat)
              (RReply (Some empty_EncodedPayload)
                 (new_timeout_err (Some (Errorf "timed out")))))
    as (ev & s' & Hst & Hp & _ & Hreqs & Hchans & _).
  { left. split; reflexivity. }
  exists ev, s'. split; [exact Hst|]. split.
  - rewrite Hp. apply lookup_insert_eq.
  - split; [exact Hreqs|exact Hchans].
Defined.

(** Counterexample to C4 as the specification states it. [Fulfill] is
    called on the pending identifier of [sched_called]; its step finds the
    entry and leaves the goroutine at the send, the identifier still
    pending and nothing returned. *)
Lemma fulfill_postcondition_counterexample :
  (run translate_context_error new_timeout_err sched_called init
   = Some (trace_of sched_called, state_of sched_called) ∧
   procs (state_of sched_called) !! 0%nat
   = Some {| p_call := CFulfill 0%nat id1 payload_P; p_pc := AtEntry |} ∧
   is_pending_at 0%nat id1 (heap (state_of sched_called)) = true ∧
   step translate_context_error new_timeout_err (ARun 0%nat)
     (state_of sched_called)
   = Some (ELookup 0%nat (Some 0%nat), state_of sched_found) ∧
   procs (state_of sched_found) !! 0%nat
   = Some {| p_call := CFulfill 0%nat id1 payload_P;
             p_pc := AtSend 0%nat (fulfill_reply payload_P) |} ∧
   is_pending_at 0%nat id1 (heap (state_of sched_found)) = true) ∧
  ¬ fulfill_postcondition translate_context_error new_timeout_err.
Proof.
  split.
  - split_and!; vm_compute; reflexivity.
  - intros Hclaim.
    destruct (Hclaim sched_called (trace_of sched_called)
                (state_of sched_called) 0%nat 0%nat id1 payload_P)
      as (ev & s' & p & r & ch & Hst & Hp & _).
    + vm_compute. reflexivity.
    + vm_compute. reflexivity.
    + vm_compute. reflexivity.
    + assert (Hst' :
        step translate_context_error new_timeout_err (ARun 0%nat)
          (state_of sched_called)
        = Some (ELookup 0%nat (Some 0%nat), state_of sched_found))
        by (vm_compute; reflexivity).
      rewrite Hst' in Hst. injection Hst as _ <-.
      vm_compute in Hp. discriminate Hp.
Qed.

(** Witness of C4: in the state of [sched_fulfilled] the call of goroutine 0
    has returned [true], and the [AwaitReply] of goroutine 1 has returned
    the payload. *)
Lemma Fulfill_delivers_witness :
  run translate_context_error new_timeout_err sched_fulfilled init
  = Some (trace_of sched_fulfilled, state_of sched_fulfilled) ∧
  procs (state_of sched_fulfilled) !! 0%nat
  = Some {| p_call := CFulfill 0%nat id1 payload_P;
            p_pc := Returned (RBool true) |} ∧
  ∃ tA p r,
    procs (state_of sched_fulfilled) !! tA
    = Some {| p_call := CAwaitReply p;
              p_pc := Returned
                        (RReply (Some {| Payload := payload_P |}) None) |} ∧
    reqs (heap (state_of sched_fulfilled)) !! p = Some r ∧
    identifier r = id1 ∧ manager r = 0%nat.
Proof.
  assert (Hrun :
    run translate_context_error new_timeout_err sched_fulfilled init
    = Some (trace_of sched_fulfilled, state_of sched_fulfilled))
    by (vm_compute; reflexivity).
  assert (Hp : procs (state_of sched_fulfilled) !! 0%nat
    = Some {| p_call := CFulfill 0%nat id1 payload_P;
              p_pc := Returned (RBool true) |}) by (vm_compute; reflexivity).
  split; [exact Hrun|]. split; [exact Hp|].
  destruct (Fulfill_delivers translate_context_error new_timeout_err
              _ _ _ 0%nat 0%nat id1 payload_P Hrun) as (_ & _ & _ & Hdone).
  apply Hdone. right. exact Hp.
Defined.

(** Counterexample to C7 as the specification states it. In [sched_both]
    the reply is handed over: [AwaitReply] returns by this step, and right
    after it the identifier is still pending. *)
Lemma removed_when_await_returns_counterexample :
  (run translate_context_error new_timeout_err sched_both init
   = Some (trace_of sched_both, state_of sched_both) ∧
   step translate_context_error new_timeout_err (AHandoff 0%nat 1%nat)
     (state_of sched_both)
   = Some (EHandoff 0%nat 1%nat (fulfill_reply payload_P),
           state_of sched_handed_over) ∧
   procs (state_of sched_both) !! 1%nat
   = Some {| p_call := CAwaitReply 0%nat; p_pc := AtEntry |} ∧
   procs (state_of sched_handed_over) !! 1%nat
   = Some {| p_call := CAwaitReply 0%nat;
             p_pc := Returned
                       (RReply (Some {| Payload := payload_P |}) None) |} ∧
   is_pending_at 0%nat id1 (heap (state_of sched_handed_over)) = true) ∧
  ¬ removed_when_await_returns translate_context_error new_timeout_err.
Proof.
  split.
  - split_and!; vm_compute; reflexivity.
  - intros Hclaim.
    assert (is_pending_at 0%nat id1 (heap (state_of sched_handed_over))
            = false) as Hbad.
    { apply (Hclaim sched_both (trace_of sched_both) (state_of sched_both)
               (AHandoff 0%nat 1%nat)
               (EHandoff 0%nat 1%nat (fulfill_reply payload_P))
               (state_of sched_handed_over) 1%nat 0%nat
               {| manager := 0%nat; identifier := id1; timeout := 1000;
                  reply_ch := 0%nat |}
               (RReply (Some {| Payload := payload_P |}) None));
        vm_compute; reflexivity. }
    vm_compute in Hbad. discriminate Hbad.
Qed.

(** Witness of C7: the same handoff; the resolver deregisters with its next
    step. *)
Lemma await_return_removal_witness :
  run translate_context_error new_timeout_err sched_both init
  = Some (trace_of sched_both, state_of sched_both) ∧
  step translate_context_error new_timeout_err (AHandoff 0%nat 1%nat)
    (state_of sched_both)
  = Some (EHandoff 0%nat 1%nat (fulfill_reply payload_P),
          state_of sched_handed_over) ∧
  ∃ ts cs v rm s'',
    EHandoff 0%nat 1%nat (fulfill_reply payload_P) = EHandoff ts 1%nat v ∧
    procs (state_of sched_handed_over) !! ts
    = Some {| p_call := cs; p_pc := AtDeregister |} ∧
    step translate_context_error new_timeout_err (ARun ts)
      (state_of sched_handed_over)
    = Some (EDeregister ts 0%nat id1 rm, s'') ∧
    is_pending_at 0%nat id1 (heap s'') = false.
Proof.
  assert (Hrun :
    run translate_context_error new_timeout_err sched_both init
    = Some (trace_of sched_both, state_of sched_both))
    by (vm_compute; reflexivity).
  assert (Hst :
    step translate_context_error new_timeout_err (AHandoff 0%nat 1%nat)
      (state_of sched_both)
    = Some (EHandoff 0%nat 1%nat (fulfill_reply payload_P),
            state_of sched_handed_over)) by (vm_compute; reflexivity).
  split; [exact Hrun|]. split; [exact Hst|].
  destruct (await_return_removal translate_context_error new_timeout_err
              _ _ _ _ _ _ 1%nat 0%nat
              {| manager := 0%nat; identifier := id1; timeout := 1000;
                 reply_ch := 0%nat |}
              (RReply (Some {| Payload := payload_P |}) None) Hrun Hst)
    as [(b & rm & Hev & _)|(ts & cs & v & rm & s'' & Hev & Hp & _ & Hd & _ & Hg)].
  - vm_compute. reflexivity.
  - vm_compute. reflexivity.
  - vm_compute. reflexivity.
  - discriminate Hev.
  - exists ts, cs, v, rm, s''. split_and!; assumption.
Defined.

(** The race that the unbuffered channel leaves open: in
    [sched_timeout_wins] the resolver has found the entry, the waiting side
    times out and deletes it, and the resolver is left at its send with no
    step of its own. *)
Example timeout_wins_after_lookup :
  run translate_context_error new_timeout_err sched_timeout_wins init
  = Some (trace_of sched_timeout_wins, state_of sched_timeout_wins) ∧
  procs (state_of sched_timeout_wins) !! 0%nat
  = Some {| p_call := CFulfill 0%nat id1 payload_P;
            p_pc := AtSend 0%nat (fulfill_reply payload_P) |} ∧
  procs (state_of sched_timeout_wins) !! 1%nat
  = Some {| p_call := CAwaitReply 0%nat;
            p_pc := Returned
              (RReply (Some empty_EncodedPayload)
                 (Some (Wrapped "Timeout" (Errorf "timed out")))) |} ∧
  is_pending_at 0%nat id1 (heap (state_of sched_timeout_wins)) = false ∧
  step translate_context_error new_timeout_err (ARun 0%nat)
    (state_of sched_timeout_wins) = None.
Proof. split_and!; vm_compute; reflexivity. Qed.

(** ** Runs of the further schedules *)

(** Witness of X2. *)
Lemma Create_registers_witness :
  mgrs (heap (state_of sched_new)) !! 0%nat = Some NewRequestManager ∧
  ∃ p h',
    Create 0%nat 1000 (heap (state_of sched_new)) = Some (p, h') ∧
    reqs (heap (state_of sched_new)) !! p = None ∧
    reqs h' !! p = Some request1.
Proof.
  assert (H0 : mgrs (heap (state_of sched_new)) !! 0%nat
               = Some NewRequestManager) by (vm_compute; reflexivity).
  split; [exact H0|].
  destruct (Create_registers 0%nat 1000 (heap (state_of sched_new))
              NewRequestManager H0)
    as (p & h' & m' & r & Hc & Hnew & Hr & _).
  exists p, h'. split; [exact Hc|]. split; [exact Hnew|].
  vm_compute in Hc. injection Hc as <- <-. vm_compute. reflexivity.
Defined.

(** Witness of X4. *)
Lemma Create_deregister_witness :
  Create 0%nat 1000 (heap (state_of sched_new))
  = Some (0%nat, heap (state_of sched_created)) ∧
  pending (deregister (Identifier request1)
             {| lastID := 1; pending := {[ id1 := 0%nat ]} |})
  = pending NewRequestManager ∧
  PendingRequests (deregister (Identifier request1)
                     {| lastID := 1; pending := {[ id1 := 0%nat ]} |})
  = PendingRequests NewRequestManager ∧
  lastID (deregister (Identifier request1)
            {| lastID := 1; pending := {[ id1 := 0%nat ]} |})
  = uint64_incr (lastID NewRequestManager).
Proof.
  assert (Hc : Create 0%nat 1000 (heap (state_of sched_new))
               = Some (0%nat, heap (state_of sched_created)))
    by (vm_compute; reflexivity).
  split; [exact Hc|].
  apply (Create_deregister 0%nat 1000 (heap (state_of sched_new))
           (heap (state_of sched_created)) NewRequestManager
           {| lastID := 1; pending := {[ id1 := 0%nat ]} |} 0%nat request1).
  - vm_compute. reflexivity.
  - exact Hc.
  - vm_compute. reflexivity.
  - vm_compute. reflexivity.
  - vm_compute. reflexivity.
Defined.

(** Witness of X5: the third request of [sched_three_creates]. *)
Lemma Create_identifiers_wrap_witness :
  run translate_context_error new_timeout_err sched_three_creates init
  = Some (trace_of sched_three_creates, state_of sched_three_creates) ∧
  PutUint64 3 = PutUint64 ((Z.of_nat 2 + 1) mod uint64_modulus).
Proof.
  assert (Hrun :
    run translate_context_error new_timeout_err sched_three_creates init
    = Some (trace_of sched_three_creates, state_of sched_three_creates))
    by (vm_compute; reflexivity).
  split; [exact Hrun|].
  destruct (Create_identifiers_wrap translate_context_error new_timeout_err
              _ _ _ 0%nat Hrun) as [Hk _].
  apply (Hk 2%nat). vm_compute. reflexivity.
Defined.

(** Witness of X6: one request made and one removed. *)
Lemma pending_accounting_witness :
  run translate_context_error new_timeout_err sched_fulfilled init
  = Some (trace_of sched_fulfilled, state_of sched_fulfilled) ∧
  Z.of_nat (length (created 0%nat (trace_of sched_fulfilled)))
  < uint64_modulus ∧
  (pending_count 0%nat (heap (state_of sched_fulfilled))
   + length (removals 0%nat (trace_of sched_fulfilled))
   = length (created 0%nat (trace_of sched_fulfilled)))%nat.
Proof.
  assert (Hrun :
    run translate_context_error new_timeout_err sched_fulfilled init
    = Some (trace_of sched_fulfilled, state_of sched_fulfilled))
    by (vm_compute; reflexivity).
  assert (Hlen : Z.of_nat (length (created 0%nat (trace_of sched_fulfilled)))
                 < uint64_modulus) by (vm_compute; reflexivity).
  split; [exact Hrun|]. split; [exact Hlen|].
  exact (pending_accounting translate_context_error new_timeout_err
           _ _ _ 0%nat Hrun Hlen).
Defined.

(** Witness of X7: the request times out, then a reply for it is called. *)
Lemma never_pending_again_witness :
  run translate_context_error new_timeout_err sched_timed_out init
  = Some (trace_of sched_timed_out, state_of sched_timed_out) ∧
  run translate_context_error new_timeout_err sched_duplicate_call
    (state_of sched_timed_out)
  = Some ([EGo 2%nat (CFulfill 0%nat id1 payload_Q)],
          state_of (sched_timed_out ++ sched_duplicate_call)) ∧
  is_pending_at 0%nat id1 (heap (state_of sched_timed_out)) = false ∧
  is_pending_at 0%nat id1
    (heap (state_of (sched_timed_out ++ sched_duplicate_call))) = false ∧
  step translate_context_error new_timeout_err (ARun 2%nat)
    (state_of (sched_timed_out ++ sched_duplicate_call))
  = Some (ELookup 2%nat None,
          set_proc 2%nat (CFulfill 0%nat id1 payload_Q)
            (Returned (RBool false))
            (state_of (sched_timed_out ++ sched_duplicate_call))).
Proof.
  assert (Hrun1 :
    run translate_context_error new_timeout_err sched_timed_out init
    = Some (trace_of sched_timed_out, state_of sched_timed_out))
    by (vm_compute; reflexivity).
  assert (Hrun2 :
    run translate_context_error new_timeout_err sched_duplicate_call
      (state_of sched_timed_out)
    = Some ([EGo 2%nat (CFulfill 0%nat id1 payload_Q)],
            state_of (sched_timed_out ++ sched_duplicate_call)))
    by (vm_compute; reflexivity).
  assert (Hgone : is_pending_at 0%nat id1 (heap (state_of sched_timed_out))
                  = false) by (vm_compute; reflexivity).
  assert (Hin : id1 ∈ created 0%nat (trace_of sched_timed_out))
    by (vm_compute; left).
  assert (Hlen :
    Z.of_nat (length (created 0%nat
      (trace_of sched_timed_out
       ++ [EGo 2%nat (CFulfill 0%nat id1 payload_Q)]))) < uint64_modulus)
    by (vm_compute; reflexivity).
  destruct (never_pending_again translate_context_error new_timeout_err
              _ _ _ _ _ _ 0%nat id1 Hrun1 Hrun2 Hin Hgone Hlen)
    as [Hstill Hmiss].
  split; [exact Hrun1|]. split; [exact Hrun2|]. split; [exact Hgone|].
  split; [exact Hstill|].
  apply Hmiss; vm_compute; reflexivity.
Defined.

(** Witness of X8: what [AwaitReply] returned in [sched_fulfilled]. *)
Lemma await_outcome_source_witness :
  run translate_context_error new_timeout_err sched_fulfilled init
  = Some (trace_of sched_fulfilled, state_of sched_fulfilled) ∧
  procs (state_of sched_fulfilled) !! 1%nat
  = Some {| p_call := CAwaitReply 0%nat;
            p_pc := Returned
                      (RReply (Some {| Payload := payload_P |}) None) |} ∧
  outcome_source translate_context_error new_timeout_err
    (state_of sched_fulfilled) 0%nat
    (RReply (Some {| Payload := payload_P |}) None).
Proof.
  assert (Hrun :
    run translate_context_error new_timeout_err sched_fulfilled init
    = Some (trace_of sched_fulfilled, state_of sched_fulfilled))
    by (vm_compute; reflexivity).
  assert (Hp : procs (state_of sched_fulfilled) !! 1%nat
    = Some {| p_call := CAwaitReply 0%nat;
              p_pc := Returned
                        (RReply (Some {| Payload := payload_P |}) None) |})
    by (vm_compute; reflexivity).
  split; [exact Hrun|]. split; [exact Hp|].
  exact (await_outcome_source translate_context_error new_timeout_err
           _ _ _ 1%nat 0%nat _ Hrun Hp).
Defined.

(** Witness of X9: [Fail] with a nil error. *)
Lemma Fail_delivers_witness :
  run translate_context_error new_timeout_err sched_failed init
  = Some (trace_of sched_failed, state_of sched_failed) ∧
  procs (state_of sched_failed) !! 0%nat
  = Some {| p_call := CFail 0%nat id1 None;
            p_pc := Returned (RBool true) |} ∧
  ∃ tA p r,
    procs (state_of sched_failed) !! tA
    = Some {| p_call := CAwaitReply p;
              p_pc := Returned (RReply (Some empty_EncodedPayload) None) |} ∧
    reqs (heap (state_of sched_failed)) !! p = Some r ∧
    Identifier r = id1 ∧ manager r = 0%nat.
Proof.
  assert (Hrun :
    run translate_context_error new_timeout_err sched_failed init
    = Some (trace_of sched_failed, state_of sched_failed))
    by (vm_compute; reflexivity).
  assert (Hp : procs (state_of sched_failed) !! 0%nat
    = Some {| p_call := CFail 0%nat id1 None;
              p_pc := Returned (RBool true) |})
    by (vm_compute; reflexivity).
  split; [exact Hrun|]. split; [exact Hp|].
  exact (Fail_delivers translate_context_error new_timeout_err
           _ _ _ 0%nat 0%nat id1 None Hrun Hp).
Defined.

(** Witness of X10: the timeout has won; a further request is made and a
    further reply is called, and the first [Fulfill] still stands at its
    send. *)
Lemma resolver_stays_blocked_witness :
  run translate_context_error new_timeout_err sched_timeout_wins init
  = Some (trace_of sched_timeout_wins, state_of sched_timeout_wins) ∧
  no_waiter 0%nat (state_of sched_timeout_wins) ∧
  procs (state_of (sched_timeout_wins ++ sched_busy)) !! 0%nat
  = Some {| p_call := CFulfill 0%nat id1 payload_P;
            p_pc := AtSend 0%nat (fulfill_reply payload_P) |} ∧
  no_waiter 0%nat (state_of (sched_timeout_wins ++ sched_busy)) ∧
  step translate_context_error new_timeout_err (ARun 0%nat)
    (state_of (sched_timeout_wins ++ sched_busy)) = None.
Proof.
  assert (Hrun1 :
    run translate_context_error new_timeout_err sched_timeout_wins init
    = Some (trace_of sched_timeout_wins, state_of sched_timeout_wins))
    by (vm_compute; reflexivity).
  assert (Hrun2 :
    run translate_context_error new_timeout_err sched_busy
      (state_of sched_timeout_wins)
    = Some (drop (length (trace_of sched_timeout_wins))
              (trace_of (sched_timeout_wins ++ sched_busy)),
            state_of (sched_timeout_wins ++ sched_busy)))
    by (vm_compute; reflexivity).
  assert (Hp : procs (state_of sched_timeout_wins) !! 0%nat
    = Some {| p_call := CFulfill 0%nat id1 payload_P;
              p_pc := AtSend 0%nat (fulfill_reply payload_P) |})
    by (vm_compute; reflexivity).
  assert (Hno : no_waiter 0%nat (state_of sched_timeout_wins)).
  { apply (bool_decide_unpack _). vm_compute. reflexivity. }
  assert (Hacts : Forall (λ act, starts_await 0%nat act = false) sched_busy)
    by (repeat constructor).
  split; [exact Hrun1|]. split; [exact Hno|].
  exact (resolver_stays_blocked translate_context_error new_timeout_err
           _ _ _ _ _ _ 0%nat _ 0%nat _ Hrun1 Hrun2 Hp Hno Hacts).
Defined.

(** Witness of X11: the step that makes the first request. *)
Lemma step_isolation_witness :
  step translate_context_error new_timeout_err (ACreate 0%nat 1000)
    (state_of sched_new)
  = Some (ECreate 0%nat 0%nat request1, state_of sched_created) ∧
  is_pending_at 0%nat id1 (heap (state_of sched_new)) = false ∧
  is_pending_at 0%nat id1 (heap (state_of sched_created)) = true ∧
  ∃ p r, ECreate 0%nat 0%nat request1 = ECreate 0%nat p r ∧
         Identifier r = id1.
Proof.
  assert (Hst :
    step translate_context_error new_timeout_err (ACreate 0%nat 1000)
      (state_of sched_new)
    = Some (ECreate 0%nat 0%nat request1, state_of sched_created))
    by (vm_compute; reflexivity).
  assert (H0 : is_pending_at 0%nat id1 (heap (state_of sched_new)) = false)
    by (vm_compute; reflexivity).
  assert (H1 : is_pending_at 0%nat id1 (heap (state_of sched_created))
               = true) by (vm_compute; reflexivity).
  split; [exact Hst|]. split; [exact H0|]. split; [exact H1|].
  destruct (step_isolation translate_context_error new_timeout_err
              _ _ _ _ 0%nat id1 Hst) as [Hin _].
  exact (Hin H0 H1).
Defined.

(** Witness of X12: in [sched_fulfilled] the one [Fulfill] is past its send
    and nothing waits on the handle. *)
Lemma single_delivery_witness :
  run translate_context_error new_timeout_err sched_fulfilled init
  = Some (trace_of sched_fulfilled, state_of sched_fulfilled) ∧
  (length (awaits_started 0%nat (trace_of sched_fulfilled)) ≤ 1)%nat ∧
  ELookup 0%nat (Some 0%nat) ∈ trace_of sched_fulfilled ∧
  no_waiter 0%nat (state_of sched_fulfilled).
Proof.
  assert (Hrun :
    run translate_context_error new_timeout_err sched_fulfilled init
    = Some (trace_of sched_fulfilled, state_of sched_fulfilled))
    by (vm_compute; reflexivity).
  assert (Hlen :
    (length (awaits_started 0%nat (trace_of sched_fulfilled)) ≤ 1)%nat)
    by (vm_compute; lia).
  assert (Hin : ELookup 0%nat (Some 0%nat) ∈ trace_of sched_fulfilled)
    by (vm_compute; do 3 right; left).
  assert (Hp : procs (state_of sched_fulfilled) !! 0%nat
    = Some {| p_call := CFulfill 0%nat id1 payload_P;
              p_pc := Returned (RBool true) |})
    by (vm_compute; reflexivity).
  split; [exact Hrun|]. split; [exact Hlen|]. split; [exact Hin|].
  destruct (single_delivery translate_context_error new_timeout_err
              _ _ _ 0%nat 0%nat _ _ Hrun Hlen Hin Hp
              (or_intror eq_refl)) as [Hno _].
  exact Hno.
Defined.

(** ** The validator of message contents *)

Section ValidatorProperties.

Import validator.

Context {E : Type}.
Variable Errorf : string → list Z → option E.

(** X13. For contents of fewer than 2^32 bytes, and an [Errorf] that never
    returns nil, [MessageContents] returns nil exactly when the length lies
    between [MinMessageLength] and [MaxMessageLength], bounds included. *)
Theorem MessageContents_accepts_iff vld contents :
  (∀ format args, Errorf format args ≠ None) →
  len contents < 2 ^ 32 →
  MessageContents Errorf vld contents = None
  ↔ MinMessageLength vld ≤ len contents ≤ MaxMessageLength vld.
Proof.
  intros Herr Hlen. unfold MessageContents, uint32.
  assert (0 ≤ len contents) by (unfold len; lia).
  rewrite Z.mod_small by lia.
  destruct (Z.ltb_spec (len contents) (MinMessageLength vld)).
  { split; [by intros ?%Herr|lia]. }
  destruct (Z.gtb_spec (len contents) (MaxMessageLength vld)).
  { split; [by intros ?%Herr|lia]. }
  split; [lia|done].
Qed.

(** X14. With [MaxMessageLength] below [MinMessageLength], and an [Errorf]
    that never returns nil, [MessageContents] rejects all contents. *)
Theorem MessageContents_empty_range vld contents :
  (∀ format args, Errorf format args ≠ None) →
  MaxMessageLength vld < MinMessageLength vld →
  MessageContents Errorf vld contents ≠ None.
Proof.
  intros Herr Hlt. unfold MessageContents.
  destruct (Z.ltb_spec (uint32 (len contents)) (MinMessageLength vld));
    [apply Herr|].
  destruct (Z.gtb_spec (uint32 (len contents)) (MaxMessageLength vld));
    [apply Herr|lia].
Qed.

(** X15. The bounds are compared with the length converted to [uint32]:
    contents whose lengths agree modulo 2^32 get the same verdict. *)
Theorem MessageContents_length_wraps vld contents1 contents2 :
  (∀ format args, Errorf format args ≠ None) →
  len contents1 mod 2 ^ 32 = len contents2 mod 2 ^ 32 →
  MessageContents Errorf vld contents1 = None
  ↔ MessageContents Errorf vld contents2 = None.
Proof.
  intros Herr Hmod. unfold MessageContents, uint32. rewrite Hmod.
  destruct (_ <? _); [split; by intros ?%Herr|].
  destruct (_ >? _); [split; by intros ?%Herr|done].
Qed.

End ValidatorProperties.

(** ** The [Login] resolver *)

Section ResolverProperties.

Import resolver.

Context {I U E : Type} `{EqDecision U}.
Variable UtGuest : U.
Variable UserType_String : U → string.
Variable ErrInvalidRequest_String : string.
Variable ReqErr_error : ReqErr → E.
Variable AuthenticateUser : string → User I U * string * option E.
Variable Compare : string → string → bool.
Variable CreateSession : SessionInfo I U → option E.
Variable logInternalError : option E → option E.
Variable NewError_ErrWrongCredentials : option E.

Abbreviation Login :=
  (Login UtGuest UserType_String ErrInvalidRequest_String ReqErr_error
     AuthenticateUser Compare CreateSession logInternalError
     NewError_ErrWrongCredentials).

(** X16. [Login] asks the connection to create a session exactly when the
    current session is a guest session, the engine knows the user and the
    hasher accepts the password against the one the engine returned; the
    session created carries the identifier and the type of the engine's
    user. *)
Theorem Login_creates_session_iff session params info :
  CallCreateSession info ∈ (Login session params).1
  ↔ UserType session = UtGuest ∧
    (AuthenticateUser (Username params)).2 = None ∧
    Compare (Password params) (AuthenticateUser (Username params)).1.2
    = true ∧
    info = {| UserIdentifier :=
                Identifier (AuthenticateUser (Username params)).1.1;
              UserType := Type_ (AuthenticateUser (Username params)).1.1 |}.
Proof.
  unfold resolver.Login.
  destruct (decide (UserType session ≠ UtGuest)) as [Hne|Heq%dec_stable].
  { simpl. split; [by intros ?%elem_of_nil|by intros [? _]]. }
  destruct (AuthenticateUser (Username params)) as [[user actual] [e|]];
    simpl.
  { split; [|by intros (_ & ? & _)].
    intros Hin%list_elem_of_singleton. done. }
  destruct (Compare (Password params) actual); simpl.
  - assert (∀ l : list (effect I U E),
      (∀ x, x ∈ l → ∀ i, x ≠ CallCreateSession i) →
      CallCreateSession info
        ∈ [CallAuthenticateUser (Username params);
           CallCompare (Password params) actual;
           CallCreateSession
             {| UserIdentifier := Identifier user; UserType := Type_ user |}]
          ++ l
      ↔ UserType session = UtGuest ∧ None = None (A:=E) ∧ true = true ∧
        info = {| UserIdentifier := Identifier user;
                  UserType := Type_ user |}) as Hgen.
    { intros l Hl. rewrite elem_of_app, !elem_of_cons, elem_of_nil. split.
      - intros [[?|[?|[[= ->]|[]]]]|Hin]; try done.
        by destruct (Hl _ Hin info).
      - intros (_ & _ & _ & ->). left. by do 2 right; left. }
    destruct (CreateSession _) as [e|].
    + apply (Hgen [CallLogInternalError (Some e)]).
      by intros x ->%list_elem_of_singleton i.
    + rewrite <- (app_nil_r [_; _; _]). apply Hgen.
      by intros x ?%elem_of_nil.
  - split; [|by intros (_ & _ & ? & _)].
    rewrite !elem_of_cons, elem_of_nil. by intros [?|[?|[]]].
Qed.

(** X17. When neither [NewError] nor [logInternalError] returns nil,
    [Login] returns a nil error exactly when the current session is a guest
    session, the engine knows the user, the hasher accepts the password and
    the connection creates the session without error. *)
Theorem Login_succeeds_iff session params :
  NewError_ErrWrongCredentials ≠ None →
  (∀ e, logInternalError (Some e) ≠ None) →
  (Login session params).2 = None
  ↔ UserType session = UtGuest ∧
    (AuthenticateUser (Username params)).2 = None ∧
    Compare (Password params) (AuthenticateUser (Username params)).1.2
    = true ∧
    CreateSession
      {| UserIdentifier :=
           Identifier (AuthenticateUser (Username params)).1.1;
         UserType := Type_ (AuthenticateUser (Username params)).1.1 |}
    = None.
Proof.
  intros Hwrong Hlog. unfold resolver.Login.
  destruct (decide (UserType session ≠ UtGuest)) as [Hne|Heq%dec_stable].
  { simpl. split; [done|by intros [? _]]. }
  destruct (AuthenticateUser (Username params)) as [[user actual] [e|]];
    simpl.
  { split; [done|by intros (_ & ? & _)]. }
  destruct (Compare (Password params) actual); simpl.
  - destruct (CreateSession _) as [e|]; simpl.
    + split; [by intros ?%Hlog|by intros (_ & _ & _ & ?)].
    + done.
  - split; [done|by intros (_ & _ & ? & _)].
Qed.

(** X18. A session that is not a guest session makes [Login] return
    without calling the engine, the hasher or the connection, and only
    such a session does. *)
Theorem Login_calls_nothing_iff session params :
  (Login session params).1 = [] ↔ UserType session ≠ UtGuest.
Proof.
  unfold resolver.Login.
  destruct (decide (UserType session ≠ UtGuest)) as [Hne|Heq%dec_stable].
  { done. }
  split; [|by intros []].
  destruct (AuthenticateUser (Username params)) as [[user actual] [e|]];
    simpl; [done|].
  destruct (negb _); [done|]. by destruct (CreateSession _).
Qed.

(** X19. The calls of [Login] come in one order, each with the arguments
    the code gives it: the engine with the user name, then the hasher with
    the given password and the one the engine returned, then the connection
    with the identifier and the type of the engine's user, then the log with
    the error of the connection.  What [Login] calls is always a prefix of
    this list. *)
Theorem Login_call_order session params :
  (Login session params).1
  `prefix_of`
  [ CallAuthenticateUser (Username params);
    CallCompare (Password params)
      (AuthenticateUser (Username params)).1.2;
    CallCreateSession
      {| UserIdentifier :=
           Identifier (AuthenticateUser (Username params)).1.1;
         UserType := Type_ (AuthenticateUser (Username params)).1.1 |};
    CallLogInternalError
      (CreateSession
         {| UserIdentifier :=
              Identifier (AuthenticateUser (Username params)).1.1;
            UserType := Type_ (AuthenticateUser (Username params)).1.1 |}) ].
Proof.
  unfold resolver.Login.
  destruct (decide (UserType session ≠ UtGuest)) as [Hne|Heq].
  { simpl. apply prefix_nil. }
  destruct (AuthenticateUser (Username params)) as [[user actual] [e|]];
    simpl.
  { by eexists. }
  destruct (Compare (Password params) actual); simpl.
  - destruct (CreateSession _) as [e|]; simpl; by eexists.
  - by eexists.
Qed.

End ResolverProperties.

(** Runs of the validator and of [Login]. *)

(** Witness of X13. *)
Lemma MessageContents_accepts_iff_witness :
  validator.MessageContents validator.errorf_record bounds_2_5 "hello" = None
  ↔ 2 ≤ validator.len "hello" ≤ 5.
Proof.
  apply (MessageContents_accepts_iff validator.errorf_record bounds_2_5
           "hello").
  - intros format args. unfold validator.errorf_record. discriminate.
  - vm_compute. reflexivity.
Defined.

(** Witness of X14. *)
Lemma MessageContents_empty_range_witness :
  validator.MaxMessageLength bounds_5_2
  < validator.MinMessageLength bounds_5_2 ∧
  validator.MessageContents validator.errorf_record bounds_5_2 "abc" ≠ None.
Proof.
  split; [vm_compute; reflexivity|].
  apply (MessageContents_empty_range validator.errorf_record bounds_5_2
           "abc").
  - intros format args. unfold validator.errorf_record. discriminate.
  - vm_compute. reflexivity.
Defined.

(** Witness of X15: two contents of five bytes. *)
Lemma MessageContents_length_wraps_witness :
  validator.MessageContents validator.errorf_record bounds_2_5 "hello" = None
  ↔ validator.MessageContents validator.errorf_record bounds_2_5 "world"
    = None.
Proof.
  apply (MessageContents_length_wraps validator.errorf_record bounds_2_5
           "hello" "world").
  - intros format args. unfold validator.errorf_record. discriminate.
  - vm_compute. reflexivity.
Defined.

(** Witness of X17: a guest logs in as the one user the engine knows. *)
Lemma Login_succeeds_iff_witness :
  (resolver.login_with (λ _, None)
     {| resolver.UserIdentifier := 0%nat; resolver.UserType := 0%nat |}
     {| resolver.Username := "ann"; resolver.Password := "pw" |}).2 = None
  ↔ 0%nat = 0%nat ∧
    (resolver.engine_one_user "ann").2 = None ∧
    resolver.hasher_equal "pw" (resolver.engine_one_user "ann").1.2 = true ∧
    (None : option string) = None.
Proof.
  apply (Login_succeeds_iff 0%nat _ "InvalidRequest" _
           resolver.engine_one_user resolver.hasher_equal (λ _, None)
           (λ _, Some "InternalError") (Some "WrongCredentials")
           {| resolver.UserIdentifier := 0%nat; resolver.UserType := 0%nat |}
           {| resolver.Username := "ann"; resolver.Password := "pw" |}).
  - discriminate.
  - intros e. discriminate.
Defined.
